(** * The g-map service of ember-cli-g-maps

    A shallow embedding of [addon/services/g-map.js]: the registry of named
    map instances ([maps.select], [maps.add], [maps.remove], [maps.refresh],
    [maps.list]), the public methods built on it ([addMap], [list],
    [refreshMap], [removeAll], [removeMap], [selectMap]) and the queue of
    pending geocode requests ([geocode]).

    JavaScript values are a small tagged union, thrown errors and mutation of
    the service are threaded through a state-and-exception monad, and calls
    into Ember and Google Maps (logger, event trigger, geocoder) are recorded
    in the state. *)

From Stdlib Require Import Ascii String.
From stdpp Require Import base numbers strings list sorting gmap pretty.

Open Scope string_scope.
Open Scope list_scope.

(** ** JavaScript values *)

(** The values the service can be handed.  Objects carry their identity;
    [VMap] is an object for which [instanceof google.maps.Map] holds, [VObj]
    any other object, with the own properties the service reads off it.
    [VNum] stands for the integral numbers. *)
#[warnings="-register-all"]
Inductive value : Type :=
| VUndefined
| VNull
| VBool (b : bool)
| VNum (n : Z)
| VStr (s : string)
| VMap (id : nat)
| VObj (id : nat) (props : list (string * value)).

(** [typeof v] *)
Definition typeof (v : value) : string :=
  match v with
  | VUndefined => "undefined"
  | VNull => "object"
  | VBool _ => "boolean"
  | VNum _ => "number"
  | VStr _ => "string"
  | VMap _ => "object"
  | VObj _ _ => "object"
  end.

(** [a === b]: primitives by value, objects by identity. *)
Definition strict_eq (a b : value) : bool :=
  match a, b with
  | VUndefined, VUndefined => true
  | VNull, VNull => true
  | VBool x, VBool y => Bool.eqb x y
  | VNum x, VNum y => Z.eqb x y
  | VStr x, VStr y => String.eqb x y
  | VMap i, VMap j => Nat.eqb i j
  | VObj i _, VObj j _ => Nat.eqb i j
  | _, _ => false
  end.

(** ToBoolean, as applied by [if], [!] and [&&]. *)
Definition truthy (v : value) : bool :=
  match v with
  | VUndefined => false
  | VNull => false
  | VBool b => b
  | VNum n => negb (Z.eqb n 0)
  | VStr s => negb (String.eqb s "")
  | VMap _ => true
  | VObj _ _ => true
  end.

(** [a || b] *)
Definition js_or (a b : value) : value := if truthy a then a else b.

(** [v instanceof google.maps.Map] *)
Definition instanceof_Map (v : value) : bool :=
  match v with
  | VMap _ => true
  | _ => false
  end.

(** A formal parameter declared as [param = dflt]: the default replaces
    [undefined] only. *)
Definition default_param (arg dflt : value) : value :=
  match arg with
  | VUndefined => dflt
  | _ => arg
  end.

(** [obj.key] on a value the caller has checked to be truthy: an own property
    of an object, [undefined] when there is none or on a primitive. *)
Fixpoint lookup_prop (key : string) (props : list (string * value)) : value :=
  match props with
  | [] => VUndefined
  | (k, v) :: rest => if String.eqb k key then v else lookup_prop key rest
  end.

Definition get_prop (obj : value) (key : string) : value :=
  match obj with
  | VObj _ props => lookup_prop key props
  | _ => VUndefined
  end.

(** ** [Number.prototype.toString(36)] on a counter *)

Definition digit36 (d : N) : ascii :=
  if (d <? 10)%N then ascii_of_N (48 + d) else ascii_of_N (87 + d).

(** The digits of [n] in base 36 put in front of [acc], the most significant
    first; [fuel] bounds their number. *)
Fixpoint digits36 (fuel : nat) (n : N) (acc : string) : string :=
  match fuel with
  | O => acc
  | S fuel' =>
      let acc' := String (digit36 (n mod 36)) acc in
      if (n / 36 =? 0)%N then acc' else digits36 fuel' (n / 36) acc'
  end.

Definition toString36 (n : N) : string :=
  digits36 (S (N.to_nat (N.log2 n))) n "".

(** ** The service state and its monad *)

(** A record of the store, [{ name, map }].  The [onLoad] accessor that [add]
    defines on it is computed from [map] on every read and holds no state. *)
Module mapItem.
Record t : Type := { name : value; map : value }.
End mapItem.

(** Calls that leave the service: [Ember.Logger.warn] with the text of the
    message and the value interpolated into it, and
    [google.maps.event.trigger(target, event)]. *)
Inductive effect : Type :=
| LoggerWarn (text : string) (interpolated : value)
| EventTrigger (target : value) (event : string).

(** [maps] is the Ember array closed over by the registry object, [mapIter]
    the module-level counter (a JavaScript number holding a non-negative
    integer), [effects] the outgoing calls made so far, oldest first. *)
Record service : Type := {
  maps : list mapItem.t;
  mapIter : N;
  effects : list effect
}.

Definition set_maps (ms : list mapItem.t) (s : service) : service :=
  {| maps := ms; mapIter := mapIter s; effects := effects s |}.

Definition set_mapIter (n : N) (s : service) : service :=
  {| maps := maps s; mapIter := n; effects := effects s |}.

Definition emit (e : effect) (s : service) : service :=
  {| maps := maps s; mapIter := mapIter s; effects := effects s ++ [e] |}.

(** [new Error(message)] *)
Inductive error : Type :=
| Error (message : string).

(** How a call completes: it returns a value or throws. *)
Inductive completion (A : Type) : Type :=
| Return (a : A)
| Throw (e : error).

Arguments Return {A} a.
Arguments Throw {A} e.

Definition M (A : Type) : Type := service -> completion A * service.

Definition ret {A} (a : A) : M A := fun s => (Return a, s).

Definition throw {A} (e : error) : M A := fun s => (Throw e, s).

Definition bind {A B} (m : M A) (k : A -> M B) : M B :=
  fun s =>
    match m s with
    | (Return a, s') => k a s'
    | (Throw e, s') => (Throw e, s')
    end.

Definition gets {A} (f : service -> A) : M A := fun s => (Return (f s), s).

Definition modify (f : service -> service) : M unit := fun s => (Return tt, f s).

Notation "x <- m ;; k" := (bind m (fun x => k))
  (at level 100, m at next level, right associativity).
Notation "m ;; k" := (bind m (fun _ => k))
  (at level 100, right associativity).

(** ** The registry object [maps] *)

Module maps.

(** The loop of [select]: the first record whose name is [name]. *)
Fixpoint select_loop (name : value) (ms : list mapItem.t) : option mapItem.t :=
  match ms with
  | [] => None
  | it :: rest =>
      if strict_eq (mapItem.name it) name then Some it else select_loop name rest
  end.

(** [select(name)]; [None] is [undefined]. *)
Definition select (name : value) : M (option mapItem.t) :=
  gets (fun s => select_loop name (maps s)).

(** [add(name, map)] *)
Definition add (name map : value) : M mapItem.t :=
  if negb (String.eqb (typeof name) "string") then
    throw (Error "GMap name must be a string")
  else if Bool.eqb (instanceof_Map map) false then
    throw (Error "GMap service only accepts Google Map instances")
  else
    found <- select name ;;
    match found with
    | Some _ => throw (Error "GMap name is taken, select a new GMap name")
    | None =>
        let mapItem := {| mapItem.name := name; mapItem.map := map |} in
        modify (fun s => set_maps (maps s ++ [mapItem]) s) ;;
        ret mapItem
    end.

(** The loop of [remove]: the first index, counted from [i], of a record
    whose name is [name]. *)
Fixpoint remove_loop (name : value) (ms : list mapItem.t) (i : nat) : option nat :=
  match ms with
  | [] => None
  | it :: rest =>
      if strict_eq (mapItem.name it) name then Some i
      else remove_loop name rest (S i)
  end.

(** [remove(name)]; [delete i] is [removeAt(i)]. *)
Definition remove (name : value) : M bool :=
  ms <- gets maps ;;
  match remove_loop name ms 0 with
  | Some i => modify (set_maps (delete i ms)) ;; ret true
  | None => ret false
  end.

(** [refresh(name)] *)
Definition refresh (name : value) : M bool :=
  mapStore <- select name ;;
  match mapStore with
  | None =>
      modify (emit (LoggerWarn "Attempted to refresh undefined GMap instance: "
                               (js_or name (VStr "(no map name given)")))) ;;
      ret false
  | Some it =>
      modify (emit (EventTrigger (mapItem.map it) "resize")) ;;
      ret true
  end.

(** [list()]: [maps.mapBy('name')] *)
Definition list (s : service) : list value := mapItem.name <$> maps s.

End maps.

(** ** The public methods of the service *)

(** [addMap(name, map)]; a call with one argument has [map = VUndefined]. *)
Definition addMap (name map : value) : M mapItem.t :=
  modify (fun s => set_mapIter (mapIter s + 1) s) ;;
  i <- gets mapIter ;;
  if Bool.eqb (instanceof_Map name) true then
    maps.add (VStr ("map-" ++ toString36 i)%string) name
  else
    maps.add name map.

(** [refreshMap(name = '')] *)
Definition refreshMap (name : value) : M bool :=
  maps.refresh (default_param name (VStr "")).

(** [removeMap(name = '')] *)
Definition removeMap (name : value) : M bool :=
  maps.remove (default_param name (VStr "")).

(** The loop of [removeAll] over the names in the order it visits them. *)
Fixpoint removeAll_loop (names : list value) : M unit :=
  match names with
  | [] => ret tt
  | n :: rest => removeMap n ;; removeAll_loop rest
  end.

(** [removeAll()]: the names are listed once and visited from the last to the
    first. *)
Definition removeAll : M bool :=
  names <- gets maps.list ;;
  removeAll_loop (rev names) ;;
  names' <- gets maps.list ;;
  modify (set_mapIter (N.of_nat (length names'))) ;;
  ret (Nat.eqb (length names') 0).

(** [selectMap(name = '')] *)
Definition selectMap (name : value) : M value :=
  result <- maps.select (default_param name (VStr "")) ;;
  match result with
  | Some it => if truthy (mapItem.map it) then ret (mapItem.map it) else ret VNull
  | None => ret VNull
  end.

(** ** Geocode requests *)

(** The object [geocode]'s callback rejects with: [{ status }], and [message]
    when the callback sets it. *)
Module err.
Record t : Type := { status : value; message : option value }.
End err.

(** A promise made by [geocode].  [Fulfilled result] records [resolve(result)];
    the results a geocoder hands over are not thenables.  [Rejected reason]
    records the callback's [reject(err)], [Failed thrown] the rejection of a
    promise whose executor threw [thrown]. *)
Inductive promise : Type :=
| Pending
| Fulfilled (result : value)
| Rejected (reason : err.t)
| Failed (thrown : value).

(** [resolve] and [reject] act on a pending promise only. *)
Definition settle (outcome p : promise) : promise :=
  match p with
  | Pending => outcome
  | _ => p
  end.

(** The part of the program state [geocode] works on: the promises made so
    far, a request being the index of its promise (its identity), the array
    [_geocodeQueue], the callbacks handed to [GMaps.prototype.geocode] that
    the geocoder has not called yet, each named by its request, and the
    requests whose callback it has called. *)
Record geocoding : Type := {
  promises : list promise;
  _geocodeQueue : list nat;
  provider : list nat;
  called : list nat
}.

(** What a call of [geocode] meets outside the service: whether an object
    refuses a new property (it is frozen), the [TypeError] a refused
    assignment throws, and what [GMaps.prototype.geocode(options)] does,
    [None] when it takes the callback and returns, [Some thrown] when it
    throws, having taken no callback. *)
Record environment : Type := {
  frozen : value -> bool;
  TypeError : value;
  GMaps_geocode : value -> option value
}.

(** [options.callback = function ...] in the strict code of a module: it
    throws unless [options] is an object that takes the property. *)
Definition assign_callback (env : environment) (options : value) : option value :=
  match options with
  | VObj _ _ => if frozen env options then Some (TypeError env) else None
  | VMap _ => if frozen env options then Some (TypeError env) else None
  | _ => Some (TypeError env)
  end.

(** The two statements of the promise's executor: [None] when both complete,
    [Some thrown] when one of them throws. *)
Definition executor (env : environment) (options : value) : option value :=
  match assign_callback env options with
  | Some thrown => Some thrown
  | None => GMaps_geocode env options
  end.

(** [a && b] *)
Definition js_and (a b : value) : value := if truthy a then b else a.

(** [queue.indexOf(request)], counting from [i] *)
Fixpoint indexOf_from (queue : list nat) (request : nat) (i : Z) : Z :=
  match queue with
  | [] => (-1)%Z
  | r :: rest => if Nat.eqb r request then i else indexOf_from rest request (i + 1)
  end.

Definition indexOf (queue : list nat) (request : nat) : Z :=
  indexOf_from queue request 0.

(** [queue.splice(start, 1)]: a negative [start] counts from the end. *)
Definition splice1 (queue : list nat) (start : Z) : list nat :=
  let len := Z.of_nat (length queue) in
  let from := if (start <? 0)%Z then Z.max (len + start) 0 else Z.min start len in
  delete (Z.to_nat from) queue.

(** [geocode(options)]: the executor stores the callback in [options] and
    passes them to the geocoder; when it throws, the promise is rejected with
    what it threw and the geocoder holds no callback.  Either way the request
    is then pushed on the queue and returned. *)
Definition geocode (env : environment) (options : value) (g : geocoding)
  : nat * geocoding :=
  let request := length (promises g) in
  match executor env options with
  | None =>
      (request,
       {| promises := promises g ++ [Pending];
          _geocodeQueue := _geocodeQueue g ++ [request];
          provider := provider g ++ [request];
          called := called g |})
  | Some thrown =>
      (request,
       {| promises := promises g ++ [Failed thrown];
          _geocodeQueue := _geocodeQueue g ++ [request];
          provider := provider g;
          called := called g |})
  end.

(** What the callback of [request] settles its promise to. *)
Definition outcome (result status : value) : promise :=
  if strict_eq status (VStr "OK") || strict_eq status (VStr "ZERO_RESULTS") then
    Fulfilled result
  else
    Rejected
      {| err.status := status;
         err.message :=
           if truthy (js_and result (get_prop result "error_message"))
           then Some (get_prop result "error_message")
           else None |}.

(** [options.callback(result, status)] of [request] *)
Definition callback (request : nat) (result status : value) (g : geocoding) : geocoding :=
  {| promises := alter (settle (outcome result status)) request (promises g);
     _geocodeQueue := splice1 (_geocodeQueue g) (indexOf (_geocodeQueue g) request);
     provider := provider g;
     called := called g |}.

(** The geocoder takes a callback it holds and calls it. *)
Definition answer (request : nat) (result status : value) (g : geocoding) : geocoding :=
  callback request result status
    {| promises := promises g;
       _geocodeQueue := _geocodeQueue g;
       provider := List.filter (fun r => negb (Nat.eqb r request)) (provider g);
       called := called g ++ [request] |}.

(** One step of the program around the queue: the application asks for a
    geocode, or the geocoder answers a request it has not answered yet. *)
Inductive geocoding_step : geocoding -> geocoding -> Prop :=
| step_geocode env options g :
    geocoding_step g (snd (geocode env options g))
| step_answer request result status g :
    request ∈ provider g ->
    geocoding_step g (answer request result status g).

Definition geocoding_init : geocoding :=
  {| promises := []; _geocodeQueue := []; provider := []; called := [] |}.

Inductive geocoding_reachable : geocoding -> Prop :=
| reachable_init : geocoding_reachable geocoding_init
| reachable_step g g' :
    geocoding_reachable g -> geocoding_step g g' -> geocoding_reachable g'.

(** What holds of the queue in every state: it lists, each once, the
    requests made whose callback has not been called; among them are those
    whose callback the geocoder holds, and the promises of these are
    pending. *)
Record queue_inv (g : geocoding) : Prop := {
  inv_queue : forall request,
      request ∈ _geocodeQueue g <->
      request < length (promises g) /\ request ∉ called g;
  inv_once : NoDup (_geocodeQueue g);
  inv_held : forall request, request ∈ provider g -> request ∈ _geocodeQueue g;
  inv_pending : forall request, request ∈ provider g ->
                promises g !! request = Some Pending;
  inv_called : forall request, request ∈ called g ->
               request < length (promises g)
}.

(** An environment in which every call of [geocode] goes through, and one in
    which the geocoder's library throws. *)
Definition working : environment :=
  {| frozen := fun _ => false;
     TypeError := VObj 0 [("name", VStr "TypeError")];
     GMaps_geocode := fun _ => None |}.

Definition broken : environment :=
  {| frozen := fun _ => false;
     TypeError := VObj 0 [("name", VStr "TypeError")];
     GMaps_geocode := fun _ => Some (VObj 0 [("name", VStr "ReferenceError")]) |}.

(** A state to try the queue in: two requests made, none answered. *)
Definition two_requests : geocoding :=
  snd (geocode working (VObj 2 []) (snd (geocode working (VObj 1 []) geocoding_init))).

(** And one more request, made while the library throws. *)
Definition one_failed : geocoding :=
  snd (geocode broken (VObj 3 []) two_requests).

(** ** Calls on the registry *)

(** The calls the application can make on the service and on its registry
    object. *)
Inductive call : Type :=
| call_maps_select (name : value)
| call_maps_add (name map : value)
| call_maps_remove (name : value)
| call_maps_refresh (name : value)
| call_maps_list
| call_addMap (name map : value)
| call_list
| call_refreshMap (name : value)
| call_removeAll
| call_removeMap (name : value)
| call_selectMap (name : value).

(** The state a call leaves, whether it returns or throws. *)
Definition exec (c : call) (s : service) : service :=
  match c with
  | call_maps_select name => snd (maps.select name s)
  | call_maps_add name map => snd (maps.add name map s)
  | call_maps_remove name => snd (maps.remove name s)
  | call_maps_refresh name => snd (maps.refresh name s)
  | call_maps_list => s
  | call_addMap name map => snd (addMap name map s)
  | call_list => s
  | call_refreshMap name => snd (refreshMap name s)
  | call_removeAll => snd (removeAll s)
  | call_removeMap name => snd (removeMap name s)
  | call_selectMap name => snd (selectMap name s)
  end.

Definition run (cs : list call) (s : service) : service :=
  foldl (fun s c => exec c s) s cs.

(** The service as the application first sees it. *)
Definition init : service := {| maps := []; mapIter := 0; effects := [] |}.

(** Every record holds a string name and a map instance, and no two records
    hold the same name. *)
Record wf (s : service) : Prop := {
  wf_name : Forall (fun it => typeof (mapItem.name it) = "string") (maps s);
  wf_map : Forall (fun it => instanceof_Map (mapItem.map it) = true) (maps s);
  wf_unique : NoDup (maps.list s)
}.

(** The record a call registered, when the call is an [add] or an [addMap]
    that returned. *)
Definition registered_by (c : call) (s : service) : option mapItem.t :=
  match c with
  | call_maps_add name map =>
      match fst (maps.add name map s) with
      | Return it => Some it
      | Throw _ => None
      end
  | call_addMap name map =>
      match fst (addMap name map s) with
      | Return it => Some it
      | Throw _ => None
      end
  | _ => None
  end.

(** The map handle among the arguments of a call: the second argument of
    [add], and of [addMap] the first when it is a map instance, else the
    second. *)
Definition handle_passed (c : call) : option value :=
  match c with
  | call_maps_add _ map => Some map
  | call_addMap name map =>
      Some (if Bool.eqb (instanceof_Map name) true then name else map)
  | _ => None
  end.

(** ** Sequences of [add] and [remove] *)

Inductive op : Type :=
| op_add (name map : value)
| op_remove (name : value).

(** An operation is successful when [add] returns, when [remove] returns
    [true]. *)
Definition apply_op (o : op) (s : service) : bool * service :=
  match o with
  | op_add name map =>
      match maps.add name map s with
      | (Return _, s') => (true, s')
      | (Throw _, s') => (false, s')
      end
  | op_remove name =>
      match maps.remove name s with
      | (Return removed, s') => (removed, s')
      | (Throw _, s') => (false, s')
      end
  end.

Fixpoint all_successful (ops : list op) (s : service) : bool :=
  match ops with
  | [] => true
  | o :: rest => fst (apply_op o s) && all_successful rest (snd (apply_op o s))
  end.

Fixpoint apply_ops (ops : list op) (s : service) : service :=
  match ops with
  | [] => s
  | o :: rest => apply_ops rest (snd (apply_op o s))
  end.

(** [names] with every entry equal to [name] left out, the others in
    order. *)
Fixpoint without (name : value) (names : list value) : list value :=
  match names with
  | [] => []
  | n :: rest =>
      if strict_eq n name then without name rest else n :: without name rest
  end.

(** The names the specification expects [list()] to give after a sequence of
    successful operations: a name is put last when it is added and taken out
    when it is removed. *)
Fixpoint expected_names (ops : list op) (names : list value) : list value :=
  match ops with
  | [] => names
  | op_add name _ :: rest => expected_names rest (names ++ [name])
  | op_remove name :: rest => expected_names rest (without name names)
  end.

(** ** Reading base 36 *)

Definition digit36_value (c : ascii) : option N :=
  let k := N_of_ascii c in
  if (48 <=? k)%N && (k <? 58)%N then Some (k - 48)%N
  else if (97 <=? k)%N && (k <? 123)%N then Some (k - 87)%N
  else None.

Fixpoint parse36_from (digits : string) (acc : N) : option N :=
  match digits with
  | EmptyString => Some acc
  | String c rest =>
      match digit36_value c with
      | Some d => parse36_from rest (acc * 36 + d)
      | None => None
      end
  end.

(** The number a non-empty string of digits [0-9a-z] denotes in base 36. *)
Definition parse36 (digits : string) : option N :=
  match digits with
  | EmptyString => None
  | _ => parse36_from digits 0
  end.

(** ** More on the registry and the queue *)

(** A call that leaves the naming to the service: any call but [maps.add] and
    an [addMap] that is given a name. *)
Definition auto_only (c : call) : bool :=
  match c with
  | call_maps_add _ _ => false
  | call_addMap name _ => instanceof_Map name
  | _ => true
  end.

(** The names [addMap] has generated: each is [map-] and a counter value, in
    base 36, that the counter has reached. *)
Definition auto_named (s : service) : Prop :=
  Forall (fun it => exists k, (k <= mapIter s)%N /\
                              mapItem.name it = VStr ("map-" +:+ toString36 k))
         (maps s).

(** How each promise stands: pending with its callback held by the geocoder,
    failed in the executor and queued for good, or settled by its callback
    and out of the queue. *)
Definition promise_stands (g : geocoding) : Prop :=
  forall request p,
    promises g !! request = Some p ->
    (p = Pending /\ request ∈ provider g) \/
    ((exists thrown, p = Failed thrown) /\
     request ∈ _geocodeQueue g /\ request ∉ provider g) \/
    (((exists result, p = Fulfilled result) \/ (exists reason, p = Rejected reason)) /\
     request ∉ _geocodeQueue g).

(** ** The registry [autocompletes] *)

(** What [autocompletes] takes from Ember and from the language:
    [Ember.get(obj, key)], [None] when it throws; [Ember.typeOf(v)] of a
    value that is not a string; the property key that a value that is not a
    string is converted to; the object [Object.prototype] that a new plain
    object inherits from; and [inherits p key], the value an object reads
    under [key] through its prototype [p] when it has no property of that
    name itself ([toString] and the like through [Object.prototype]),
    [undefined] when there is none. *)
Record runtime : Type := {
  Ember_get : value -> string -> option value;
  Ember_typeOf : value -> string;
  to_key : value -> string;
  Object_prototype : value;
  inherits : value -> string -> value
}.

(** [Ember.typeOf(v)]: ['string'] for a string. *)
Definition typeOf (rt : runtime) (v : value) : string :=
  match v with
  | VStr _ => "string"
  | _ => Ember_typeOf rt v
  end.

(** The key of [obj[v]]: a string is its own key. *)
Definition property_key (rt : runtime) (v : value) : string :=
  match v with
  | VStr s => s
  | _ => to_key rt v
  end.

(** [obj.key]: reading a property of [undefined] or [null] throws. *)
Definition read_prop (obj : value) (key : string) : option value :=
  match obj with
  | VUndefined => None
  | VNull => None
  | _ => Some (get_prop obj key)
  end.

Definition is_object (v : value) : bool :=
  match v with
  | VMap _ => true
  | VObj _ _ => true
  | _ => false
  end.

Definition is_null (v : value) : bool :=
  match v with
  | VNull => true
  | _ => false
  end.

(** The object [autocompletes]: the properties stored in it, by key, and the
    object it inherits from, [Object.prototype] when it is made by [{}].
    Nothing but the three methods reaches the object.  The objects of the
    model are ordinary ones: what they hold or inherit under a key other
    than [__proto__] is a property that can be written, and [__proto__] is
    the accessor they inherit from [Object.prototype], which reads and
    replaces the prototype of the object it is used on. *)
Record plain_object : Type := {
  own : gmap string value;
  proto : value
}.

(** What [o] reads under [key] when it has no property of that name
    itself. *)
Definition inherited (rt : runtime) (o : plain_object) (key : string) : value :=
  if is_null (proto o) then VUndefined
  else if String.eqb key "__proto__" then proto o
  else inherits rt (proto o) key.

(** [o[key]] *)
Definition obj_get (rt : runtime) (o : plain_object) (key : string) : value :=
  match own o !! key with
  | Some v => v
  | None => inherited rt o key
  end.

(** [o[key] = v]: a property of [o] is created or overwritten, but for
    [__proto__], which, unless [o] has a property of that name or inherits
    from nothing, makes an object or [null] the prototype of [o] and ignores
    any other value. *)
Definition obj_set (o : plain_object) (key : string) (v : value) : plain_object :=
  match own o !! key with
  | Some _ => {| own := <[key := v]> (own o); proto := proto o |}
  | None =>
      if String.eqb key "__proto__" && negb (is_null (proto o)) then
        if is_object v || is_null v then {| own := own o; proto := v |} else o
      else {| own := <[key := v]> (own o); proto := proto o |}
  end.

(** [delete o[key]] *)
Definition obj_delete (o : plain_object) (key : string) : plain_object :=
  {| own := delete key (own o); proto := proto o |}.

(** The methods of [autocompletes]; a method gives [None] when it throws. *)
Module autocompletes.

(** [let autocompletes = {}] *)
Definition empty (rt : runtime) : plain_object :=
  {| own := ∅; proto := Object_prototype rt |}.

(** [add(item)] *)
Definition add (rt : runtime) (item : value) (store : plain_object)
  : option plain_object :=
  component ← read_prop item "component";
  id ← Ember_get rt component "elementId";
  Some (obj_set store (property_key rt id) item).

(** [remove(component)] *)
Definition remove (rt : runtime) (component : value) (store : plain_object)
  : option plain_object :=
  id ← Ember_get rt component "elementId";
  Some (obj_delete store (property_key rt id)).

(** [get(component)] *)
Definition get (rt : runtime) (component : value) (store : plain_object)
  : option value :=
  if String.eqb (typeOf rt component) "string" then
    Some (obj_get rt store (property_key rt component))
  else
    id ← Ember_get rt component "elementId";
    Some (obj_get rt store (property_key rt id)).

End autocompletes.

(** A run time to try [autocompletes] in.  [Ember.get] reads a property and
    throws on [undefined] and [null]; an object is of type ['object'];
    numbers are keys in decimal and an object is the key
    ["[object Object]"]; [Object.prototype] holds [constructor] and
    [toString], and an object used as a prototype hands on its own
    properties and then those. *)
Definition plain_Object_prototype : value :=
  VObj 0 [("constructor", VObj 1 []); ("toString", VObj 2 [])].

Definition plain_runtime : runtime :=
  {| Ember_get := read_prop;
     Ember_typeOf := fun v =>
       match v with
       | VUndefined => "undefined"
       | VNull => "null"
       | VBool _ => "boolean"
       | VNum _ => "number"
       | _ => "object"
       end;
     to_key := fun v =>
       match v with
       | VUndefined => "undefined"
       | VNull => "null"
       | VBool true => "true"
       | VBool false => "false"
       | VNum n => pretty n
       | _ => "[object Object]"
       end;
     Object_prototype := plain_Object_prototype;
     inherits := fun p key =>
       match p with
       | VObj 0 _ => get_prop plain_Object_prototype key
       | VObj _ props =>
           if bool_decide (key ∈ props.*1) then lookup_prop key props
           else get_prop plain_Object_prototype key
       | _ => get_prop plain_Object_prototype key
       end |}.

(** * Properties *)

(** ** Values *)

Lemma strict_eq_refl v : strict_eq v v = true.
Proof.
  destruct v as [| |b|n|s|i|i ps]; simpl; try reflexivity.
  - by destruct b.
  - apply Z.eqb_refl.
  - apply String.eqb_refl.
  - apply Nat.eqb_refl.
  - apply Nat.eqb_refl.
Qed.

Lemma typeof_string v : typeof v = "string" <-> exists s, v = VStr s.
Proof.
  split.
  - destruct v; simpl; intros H; try discriminate H. eauto.
  - intros [s ->]. reflexivity.
Qed.

Lemma strict_eq_string_l a b :
  typeof a = "string" -> strict_eq a b = true -> a = b.
Proof.
  intros [s ->]%typeof_string. destruct b; simpl; try discriminate.
  intros H%String.eqb_eq. by subst.
Qed.

Lemma strict_eq_string_r a b :
  typeof b = "string" -> strict_eq a b = true -> a = b.
Proof.
  intros [s ->]%typeof_string. destruct a; simpl; try discriminate.
  intros H%String.eqb_eq. by subst.
Qed.

(** ** The loops of the registry *)

Lemma select_loop_Some name ms it :
  maps.select_loop name ms = Some it ->
  it ∈ ms /\ strict_eq (mapItem.name it) name = true.
Proof.
  induction ms as [|x rest IH]; simpl; [discriminate|].
  destruct (strict_eq (mapItem.name x) name) eqn:E.
  - intros [= <-]. split; [left | exact E].
  - intros H. destruct (IH H) as [Hin Heq]. split; [by right | exact Heq].
Qed.

Lemma select_loop_None name ms :
  maps.select_loop name ms = None <->
  Forall (fun it => strict_eq (mapItem.name it) name = false) ms.
Proof.
  induction ms as [|x rest IH]; simpl.
  - split; [constructor | reflexivity].
  - destruct (strict_eq (mapItem.name x) name) eqn:E.
    + split; [discriminate|]. intros H. inversion H; congruence.
    + rewrite IH. split; [by constructor | by inversion 1].
Qed.

Lemma select_loop_None_not_elem name ms :
  maps.select_loop name ms = None -> name ∉ mapItem.name <$> ms.
Proof.
  rewrite select_loop_None. intros HF [it [-> Hin]]%list_elem_of_fmap.
  rewrite Forall_forall in HF. specialize (HF _ Hin).
  rewrite strict_eq_refl in HF. discriminate.
Qed.

(** With unique string names, [select] of a record's name finds that record. *)
Lemma select_loop_elem ms it :
  Forall (fun it => typeof (mapItem.name it) = "string") ms ->
  NoDup (mapItem.name <$> ms) ->
  it ∈ ms ->
  maps.select_loop (mapItem.name it) ms = Some it.
Proof.
  induction ms as [|x rest IH]; intros Hstr Hnd Hin; [by inversion Hin|].
  inversion Hstr as [|? ? Hx Hrest]; subst.
  rewrite fmap_cons in Hnd. apply NoDup_cons in Hnd as [Hnotin Hnd].
  simpl. destruct (strict_eq (mapItem.name x) (mapItem.name it)) eqn:E.
  - apply strict_eq_string_l in E; [|exact Hx].
    apply elem_of_cons in Hin as [->|Hin]; [reflexivity|].
    exfalso. apply Hnotin. rewrite E. apply list_elem_of_fmap. eauto.
  - apply elem_of_cons in Hin as [->|Hin].
    + rewrite strict_eq_refl in E. discriminate.
    + by apply IH.
Qed.

Lemma remove_loop_None name ms i :
  maps.remove_loop name ms i = None <-> maps.select_loop name ms = None.
Proof.
  revert i. induction ms as [|x rest IH]; intros i; simpl; [done|].
  destruct (strict_eq (mapItem.name x) name); [split; discriminate | apply IH].
Qed.

(** The index [remove] finds is that of the record [select] finds. *)
Lemma remove_loop_Some name ms i j :
  maps.remove_loop name ms i = Some j ->
  exists k it, j = i + k /\ ms !! k = Some it /\
               maps.select_loop name ms = Some it /\
               Forall (fun it => strict_eq (mapItem.name it) name = false) (take k ms).
Proof.
  revert i. induction ms as [|x rest IH]; intros i; simpl; [discriminate|].
  destruct (strict_eq (mapItem.name x) name) eqn:E.
  - intros [= <-]. exists 0, x. repeat split; [lia | constructor].
  - intros H. destruct (IH _ H) as (k & it & -> & Hk & Hsel & Hpre).
    exists (S k), it. repeat split; [lia | exact Hk | exact Hsel |].
    simpl. by constructor.
Qed.

(** ** The invariant of the registry *)

Ltac unfold_monad :=
  unfold bind, ret, throw, gets, modify in *; simpl in *.

Lemma wf_same_maps s s' : maps s' = maps s -> wf s -> wf s'.
Proof.
  intros E [H1 H2 H3]. split; unfold maps.list; rewrite E; assumption.
Qed.

Lemma init_wf : wf init.
Proof. split; simpl; constructor. Qed.

Lemma add_wf name map s : wf s -> wf (snd (maps.add name map s)).
Proof.
  intros Hwf. unfold maps.add, maps.select. unfold_monad.
  destruct (String.eqb (typeof name) "string") eqn:Hname; simpl; [|exact Hwf].
  destruct (instanceof_Map map) eqn:Hmap; simpl; [|exact Hwf].
  destruct (maps.select_loop name (maps s)) eqn:Hsel; simpl; [exact Hwf|].
  destruct Hwf as [H1 H2 H3]. apply String.eqb_eq in Hname.
  split; unfold maps.list; simpl.
  - apply Forall_app. split; [exact H1 | by repeat constructor].
  - apply Forall_app. split; [exact H2 | by repeat constructor].
  - rewrite fmap_app. apply NoDup_app. split; [exact H3|]. split.
    + intros x Hx [->|[]%elem_of_nil]%elem_of_cons.
      by apply select_loop_None_not_elem in Hsel.
    + apply NoDup_singleton.
Qed.

Lemma remove_wf name s : wf s -> wf (snd (maps.remove name s)).
Proof.
  intros Hwf. unfold maps.remove. unfold_monad.
  destruct (maps.remove_loop name (maps s) 0) as [i|]; simpl; [|exact Hwf].
  destruct Hwf as [H1 H2 H3]. split; unfold maps.list; simpl.
  - by apply Forall_delete.
  - by apply Forall_delete.
  - rewrite list_fmap_delete. eapply sublist_NoDup; [exact H3 | apply sublist_delete].
Qed.

Lemma refresh_maps name s : maps (snd (maps.refresh name s)) = maps s.
Proof.
  unfold maps.refresh, maps.select. unfold_monad.
  by destruct (maps.select_loop name (maps s)).
Qed.

Lemma removeAll_loop_wf names s : wf s -> wf (snd (removeAll_loop names s)).
Proof.
  revert s. induction names as [|n rest IH]; intros s Hwf; [exact Hwf|].
  simpl. unfold bind. destruct (removeMap n s) as [[b|e] s'] eqn:E.
  - apply IH. replace s' with (snd (removeMap n s)) by (by rewrite E).
    by apply remove_wf.
  - simpl. replace s' with (snd (removeMap n s)) by (by rewrite E).
    by apply remove_wf.
Qed.

Lemma removeAll_wf s : wf s -> wf (snd (removeAll s)).
Proof.
  intros Hwf. unfold removeAll. unfold_monad.
  pose proof (removeAll_loop_wf (rev (maps.list s)) s Hwf) as H.
  destruct (removeAll_loop (rev (maps.list s)) s) as [[[]|e] s']; simpl in *.
  - eapply wf_same_maps; [|exact H]. reflexivity.
  - exact H.
Qed.

Lemma selectMap_state name s : snd (selectMap name s) = s.
Proof.
  unfold selectMap, maps.select. unfold_monad.
  destruct (maps.select_loop _ (maps s)) as [it|]; [|reflexivity].
  by destruct (truthy (mapItem.map it)).
Qed.

Lemma addMap_wf name map s : wf s -> wf (snd (addMap name map s)).
Proof.
  intros Hwf. unfold addMap. unfold_monad.
  destruct (instanceof_Map name); simpl; apply add_wf;
    (eapply wf_same_maps; [|exact Hwf]); reflexivity.
Qed.

Lemma exec_wf c s : wf s -> wf (exec c s).
Proof.
  intros Hwf. destruct c; simpl; try exact Hwf.
  - by apply add_wf.
  - by apply remove_wf.
  - eapply wf_same_maps; [apply refresh_maps | exact Hwf].
  - by apply addMap_wf.
  - eapply wf_same_maps; [apply refresh_maps | exact Hwf].
  - by apply removeAll_wf.
  - by apply remove_wf.
  - by rewrite selectMap_state.
Qed.

Lemma run_wf cs s : wf s -> wf (run cs s).
Proof.
  revert s. induction cs as [|c cs IH]; intros s Hwf; [exact Hwf|].
  simpl. apply IH. by apply exec_wf.
Qed.

Lemma reachable_wf cs : wf (run cs init).
Proof. apply run_wf, init_wf. Qed.

(** ** What [add] and [remove] do to the store *)

Lemma add_mapIter name map s : mapIter (snd (maps.add name map s)) = mapIter s.
Proof.
  unfold maps.add, maps.select. unfold_monad.
  destruct (String.eqb (typeof name) "string"); simpl; [|reflexivity].
  destruct (instanceof_Map map); simpl; [|reflexivity].
  by destruct (maps.select_loop name (maps s)).
Qed.

(** [add] returns in one case only, and then the record is put last. *)
Lemma add_Return name map s it s' :
  maps.add name map s = (Return it, s') ->
  typeof name = "string" /\ instanceof_Map map = true /\
  maps.select_loop name (maps s) = None /\
  it = {| mapItem.name := name; mapItem.map := map |} /\
  s' = set_maps (maps s ++ [it]) s.
Proof.
  unfold maps.add, maps.select. unfold_monad.
  destruct (String.eqb (typeof name) "string") eqn:Hname; simpl; [|discriminate].
  destruct (instanceof_Map map) eqn:Hmap; simpl; [|discriminate].
  destruct (maps.select_loop name (maps s)) eqn:Hsel; simpl; [discriminate|].
  intros [= <- <-]. apply String.eqb_eq in Hname. done.
Qed.

Lemma without_not_elem name names :
  Forall (fun n => typeof n = "string") names ->
  name ∉ names -> without name names = names.
Proof.
  induction 1 as [|n rest Hn Hrest IH]; intros Hnot; [reflexivity|].
  apply not_elem_of_cons in Hnot as [Hne Hnot]. simpl.
  destruct (strict_eq n name) eqn:E.
  - apply strict_eq_string_l in E; [congruence | exact Hn].
  - by rewrite IH.
Qed.

(** On unique string names, taking out the record [remove] finds takes its
    name, and no other, out of the list. *)
Lemma remove_loop_without name ms i j :
  Forall (fun it => typeof (mapItem.name it) = "string") ms ->
  NoDup (mapItem.name <$> ms) ->
  maps.remove_loop name ms i = Some j ->
  mapItem.name <$> delete (j - i) ms = without name (mapItem.name <$> ms).
Proof.
  revert i. induction ms as [|x rest IH]; intros i Hstr Hnd; simpl; [discriminate|].
  inversion Hstr as [|? ? Hx Hrest]; subst.
  rewrite fmap_cons in Hnd. apply NoDup_cons in Hnd as [Hnotin Hnd].
  destruct (strict_eq (mapItem.name x) name) eqn:E.
  - intros [= <-]. replace (i - i) with 0 by lia. simpl.
    apply strict_eq_string_l in E; [|exact Hx]. subst name.
    symmetry. apply without_not_elem; [|exact Hnotin].
    apply Forall_fmap. exact Hrest.
  - intros H. pose proof (remove_loop_Some _ _ _ _ H) as (k & _ & -> & _).
    replace (S i + k - i) with (S k) by lia. simpl. f_equal.
    specialize (IH (S i) Hrest Hnd H).
    by replace (S i + k - S i) with k in IH by lia.
Qed.

Lemma remove_true name s s' :
  wf s ->
  maps.remove name s = (Return true, s') ->
  maps.list s' = without name (maps.list s) /\
  mapIter s' = mapIter s /\ effects s' = effects s.
Proof.
  intros [H1 _ H3]. unfold maps.remove. unfold_monad.
  destruct (maps.remove_loop name (maps s) 0) as [j|] eqn:E; [|discriminate].
  intros [= <-]. split; [|done]. unfold maps.list. simpl.
  rewrite <- (remove_loop_without name (maps s) 0 j H1 H3 E).
  by replace (j - 0) with j by lia.
Qed.

Lemma remove_loop_last name ms it i :
  Forall (fun x => strict_eq (mapItem.name x) name = false) ms ->
  strict_eq (mapItem.name it) name = true ->
  maps.remove_loop name (ms ++ [it]) i = Some (i + length ms).
Proof.
  revert i. induction ms as [|x rest IH]; intros i Hms Hit; simpl.
  - rewrite Hit. f_equal. lia.
  - inversion Hms as [|? ? Hx Hrest]; subst. rewrite Hx.
    rewrite IH by assumption. f_equal. lia.
Qed.

(** The loop of [removeAll] empties a store of unique string names. *)
Lemma removeAll_loop_empties ms :
  Forall (fun it => typeof (mapItem.name it) = "string") ms ->
  NoDup (mapItem.name <$> ms) ->
  forall s, maps s = ms ->
  removeAll_loop (rev (mapItem.name <$> ms)) s = (Return tt, set_maps [] s).
Proof.
  induction ms as [|it ms IH] using rev_ind; intros Hstr Hnd s Hs.
  - simpl. unfold ret. destruct s; simpl in *. by subst.
  - apply Forall_app in Hstr as [Hstr Hit]. inversion Hit as [|? ? Hname _]; subst.
    rewrite fmap_app in *. simpl in *.
    apply NoDup_app in Hnd as (Hnd & Hdisj & _).
    rewrite rev_app_distr. simpl.
    destruct (proj1 (typeof_string _) Hname) as [n Hn].
    unfold bind, removeMap, maps.remove. rewrite Hn. simpl. unfold_monad.
    rewrite Hs, <- Hn.
    rewrite (remove_loop_last (mapItem.name it) ms it 0).
    + simpl. replace (delete (length ms) (ms ++ [it])) with ms
        by (by rewrite delete_middle, app_nil_r).
      rewrite (IH Hstr Hnd (set_maps ms s) eq_refl). reflexivity.
    + apply Forall_forall. intros x Hx.
      destruct (strict_eq (mapItem.name x) (mapItem.name it)) eqn:E; [|reflexivity].
      exfalso. apply strict_eq_string_r in E; [|exact Hname].
      apply (Hdisj (mapItem.name x)).
      * apply list_elem_of_fmap. eauto.
      * rewrite E. left.
    + apply strict_eq_refl.
Qed.

Lemma removeAll_empties s :
  wf s -> removeAll s = (Return true, set_mapIter 0 (set_maps [] s)).
Proof.
  intros [H1 _ H3]. unfold removeAll. unfold bind at 1. unfold gets at 1.
  unfold bind at 1. unfold maps.list at 1.
  rewrite (removeAll_loop_empties (maps s) H1 H3 s eq_refl).
  reflexivity.
Qed.

(** ** [removeAll] and the next generated name *)

(** C1, as amended: in every state the service can reach, [removeAll()]
    returns [true] and leaves the registry empty and the counter at zero, and
    the next [addMap(handle)], called with the map handle alone, registers
    the map under the generated name ["map-1"] (the counter is incremented
    before the name is made). *)
Theorem removeAll_then_addMap cs h :
  let s := run cs init in
  let it := {| mapItem.name := VStr "map-1"; mapItem.map := VMap h |} in
  exists s1 s2,
    removeAll s = (Return true, s1) /\
    maps s1 = [] /\ mapIter s1 = 0%N /\
    addMap (VMap h) VUndefined s1 = (Return it, s2) /\
    maps s2 = [it] /\ maps.list s2 = [VStr "map-1"].
Proof.
  intros s it. pose proof (reachable_wf cs) as Hwf. fold s in Hwf.
  exists (set_mapIter 0 (set_maps [] s)).
  exists {| maps := [it]; mapIter := 1; effects := effects s |}.
  split; [by apply removeAll_empties|].
  repeat split.
Qed.

(** C1, as stated, fails: after [removeAll()] the map added without a name is
    registered under ["map-1"], not under ["map-0"]. *)
Lemma removeAll_then_addMap_not_map_0 :
  exists it s2,
    (removeAll ;; addMap (VMap 0) VUndefined)
      (run [call_addMap (VMap 7) VUndefined; call_addMap (VStr "main") (VMap 8)] init)
    = (Return it, s2) /\
    maps.list s2 = [mapItem.name it] /\
    mapItem.name it = VStr "map-1" /\
    mapItem.name it <> VStr "map-0".
Proof.
  eexists. eexists. split; [vm_compute; reflexivity|].
  split; [reflexivity|]. split; [reflexivity|]. discriminate.
Qed.

(** ** Adding under a name that is taken *)

(** C2: in every state of the registry, [add] called with a name that is
    already registered throws (the error for a taken name when the arguments
    are a string and a map instance, one of the two other validation errors
    otherwise), and the state, so the sequence of records, is the one before
    the call. *)
Theorem add_taken_fails name map s :
  name ∈ maps.list s ->
  exists message,
    maps.add name map s = (Throw (Error message), s) /\
    maps (snd (maps.add name map s)) = maps s /\
    (typeof name = "string" -> instanceof_Map map = true ->
     message = "GMap name is taken, select a new GMap name").
Proof.
  intros Hin. unfold maps.add, maps.select. unfold_monad.
  destruct (String.eqb (typeof name) "string") eqn:Hname; simpl.
  - destruct (instanceof_Map map) eqn:Hmap; simpl.
    + destruct (maps.select_loop name (maps s)) as [it|] eqn:Hsel; simpl.
      * eauto.
      * exfalso. by apply select_loop_None_not_elem in Hsel.
    + eexists. repeat split. discriminate.
  - eexists. repeat split. apply String.eqb_neq in Hname. congruence.
Qed.

Lemma add_taken_fails_witness :
  exists message,
    maps.add (VStr "main") (VMap 1) (snd (maps.add (VStr "main") (VMap 0) init))
    = (Throw (Error message), snd (maps.add (VStr "main") (VMap 0) init)) /\
    maps (snd (maps.add (VStr "main") (VMap 1)
                 (snd (maps.add (VStr "main") (VMap 0) init))))
    = maps (snd (maps.add (VStr "main") (VMap 0) init)) /\
    (typeof (VStr "main") = "string" -> instanceof_Map (VMap 1) = true ->
     message = "GMap name is taken, select a new GMap name").
Proof.
  apply (add_taken_fails (VStr "main") (VMap 1)
           (snd (maps.add (VStr "main") (VMap 0) init))).
  vm_compute. left.
Defined.

(** ** [list] after additions and removals *)

Lemma apply_ops_names ops :
  forall s, wf s ->
  all_successful ops s = true ->
  wf (apply_ops ops s) /\
  maps.list (apply_ops ops s) = expected_names ops (maps.list s).
Proof.
  induction ops as [|o rest IH]; intros s Hwf Hok; [done|].
  simpl in Hok. apply andb_true_iff in Hok as [Ho Hrest].
  simpl. destruct o as [name map|name]; simpl in *.
  - pose proof (add_wf name map s Hwf) as Hwf'.
    destruct (maps.add name map s) as [[it|e] s'] eqn:E; [|discriminate].
    apply add_Return in E as (_ & _ & _ & -> & ->). simpl in *.
    destruct (IH _ Hwf' Hrest) as [IH1 IH2]. split; [exact IH1|].
    rewrite IH2. unfold maps.list. simpl. by rewrite fmap_app.
  - pose proof (remove_wf name s Hwf) as Hwf'.
    destruct (maps.remove name s) as [[b|e] s'] eqn:E; [|discriminate].
    simpl in *. subst b. apply remove_true in E as (El & _); [|exact Hwf].
    destruct (IH _ Hwf' Hrest) as [IH1 IH2]. split; [exact IH1|].
    by rewrite IH2, El.
Qed.

(** C3: after any sequence of successful [add] and [remove] operations on an
    empty registry, [list()] gives the names the specification expects, those
    added and not removed since, in the order they were added, and gives no
    name twice. *)
Theorem list_after_ops ops i es :
  let s0 := {| maps := []; mapIter := i; effects := es |} in
  all_successful ops s0 = true ->
  maps.list (apply_ops ops s0) = expected_names ops [] /\
  NoDup (maps.list (apply_ops ops s0)).
Proof.
  intros s0 Hok.
  assert (wf s0) as Hwf by (split; simpl; constructor).
  destruct (apply_ops_names ops s0 Hwf Hok) as [[_ _ Hnd] Hlist].
  split; [exact Hlist | exact Hnd].
Qed.

Lemma list_after_ops_witness :
  maps.list
    (apply_ops [op_add (VStr "a") (VMap 0); op_add (VStr "b") (VMap 1);
                op_add (VStr "c") (VMap 2); op_remove (VStr "b");
                op_add (VStr "b") (VMap 3); op_remove (VStr "a")]
       {| maps := []; mapIter := 0; effects := [] |})
  = expected_names
      [op_add (VStr "a") (VMap 0); op_add (VStr "b") (VMap 1);
       op_add (VStr "c") (VMap 2); op_remove (VStr "b");
       op_add (VStr "b") (VMap 3); op_remove (VStr "a")] [] /\
  NoDup
    (maps.list
       (apply_ops [op_add (VStr "a") (VMap 0); op_add (VStr "b") (VMap 1);
                   op_add (VStr "c") (VMap 2); op_remove (VStr "b");
                   op_add (VStr "b") (VMap 3); op_remove (VStr "a")]
          {| maps := []; mapIter := 0; effects := [] |})).
Proof.
  apply (list_after_ops
           [op_add (VStr "a") (VMap 0); op_add (VStr "b") (VMap 1);
            op_add (VStr "c") (VMap 2); op_remove (VStr "b");
            op_add (VStr "b") (VMap 3); op_remove (VStr "a")] 0%N []).
  vm_compute. reflexivity.
Defined.

Example list_after_ops_example :
  maps.list
    (apply_ops [op_add (VStr "a") (VMap 0); op_add (VStr "b") (VMap 1);
                op_add (VStr "c") (VMap 2); op_remove (VStr "b");
                op_add (VStr "b") (VMap 3); op_remove (VStr "a")] init)
  = [VStr "c"; VStr "b"].
Proof. reflexivity. Qed.

(** ** [selectMap] *)

Lemma select_loop_not_elem name ms :
  Forall (fun it => typeof (mapItem.name it) = "string") ms ->
  name ∉ mapItem.name <$> ms -> maps.select_loop name ms = None.
Proof.
  intros Hstr Hnot. apply select_loop_None, Forall_forall. intros it Hin.
  destruct (strict_eq (mapItem.name it) name) eqn:E; [|reflexivity].
  exfalso. apply Hnot. rewrite Forall_forall in Hstr.
  apply strict_eq_string_l in E; [|by apply Hstr].
  rewrite <- E. apply list_elem_of_fmap. eauto.
Qed.

Lemma instanceof_Map_truthy v : instanceof_Map v = true -> truthy v = true.
Proof. by destruct v. Qed.

Lemma default_param_string v d : typeof v = "string" -> default_param v d = v.
Proof. by intros [n ->]%typeof_string. Qed.

Lemma selectMap_registered s it :
  wf s -> it ∈ maps s ->
  selectMap (mapItem.name it) s = (Return (mapItem.map it), s).
Proof.
  intros [H1 H2 H3] Hin. unfold selectMap, maps.select. unfold_monad.
  rewrite Forall_forall in H1, H2.
  rewrite default_param_string by (by apply H1).
  rewrite (select_loop_elem _ _ (proj2 (Forall_forall _ _) H1) H3 Hin).
  by rewrite (instanceof_Map_truthy _ (H2 _ Hin)).
Qed.

Lemma selectMap_unregistered s name :
  wf s -> default_param name (VStr "") ∉ maps.list s ->
  selectMap name s = (Return VNull, s).
Proof.
  intros [H1 _ _] Hnot. unfold selectMap, maps.select. unfold_monad.
  by rewrite (select_loop_not_elem _ _ H1 Hnot).
Qed.

(** ** Where the records of the store come from *)

Lemma add_Throw name map s e s' :
  maps.add name map s = (Throw e, s') -> s' = s.
Proof.
  unfold maps.add, maps.select. unfold_monad.
  destruct (String.eqb (typeof name) "string"); simpl; [|congruence].
  destruct (instanceof_Map map); simpl; [|congruence].
  destruct (maps.select_loop name (maps s)); simpl; [congruence|discriminate].
Qed.

Lemma add_elem name map s it :
  it ∈ maps (snd (maps.add name map s)) ->
  it ∈ maps s \/ fst (maps.add name map s) = Return it /\ mapItem.map it = map.
Proof.
  destruct (maps.add name map s) as [[it'|e] s'] eqn:E; simpl.
  - apply add_Return in E as (_ & _ & _ & -> & ->). simpl.
    intros [Hin|Hin]%elem_of_app; [by left|].
    apply list_elem_of_singleton in Hin as ->. by right.
  - apply add_Throw in E as ->. by left.
Qed.

Lemma remove_elem name s it :
  it ∈ maps (snd (maps.remove name s)) -> it ∈ maps s.
Proof.
  unfold maps.remove. unfold_monad.
  destruct (maps.remove_loop name (maps s) 0); simpl; [|done].
  apply list_elem_of_delete_inv.
Qed.

Lemma exec_elem c s it :
  wf s ->
  it ∈ maps (exec c s) ->
  it ∈ maps s \/
  registered_by c s = Some it /\ handle_passed c = Some (mapItem.map it).
Proof.
  intros Hwf. destruct c; simpl; try (by left).
  - intros [H|[H1 H2]]%add_elem; [by left|right]. by rewrite H1, H2.
  - intros H%remove_elem. by left.
  - rewrite refresh_maps. by left.
  - unfold addMap. unfold_monad.
    destruct (instanceof_Map name); simpl;
      (intros [H|[H1 H2]]%add_elem; [by left|right]); by rewrite H1, H2.
  - unfold refreshMap. rewrite refresh_maps. by left.
  - rewrite (removeAll_empties s Hwf). simpl. by intros ?%elem_of_nil.
  - intros H%remove_elem. by left.
  - rewrite selectMap_state. by left.
Qed.

Lemma run_snoc cs c s : run (cs ++ [c]) s = exec c (run cs s).
Proof. unfold run. by rewrite foldl_app. Qed.

(** Every record of the store was returned by an earlier [add] or [addMap],
    and holds the handle that call was given. *)
Lemma registered_provenance cs it :
  it ∈ maps (run cs init) ->
  exists cs1 c cs2,
    cs = cs1 ++ c :: cs2 /\
    registered_by c (run cs1 init) = Some it /\
    handle_passed c = Some (mapItem.map it).
Proof.
  induction cs as [|c cs IH] using rev_ind.
  - by intros ?%elem_of_nil.
  - rewrite run_snoc. intros Hin. apply exec_elem in Hin; [|apply reachable_wf].
    destruct Hin as [Hin|[H1 H2]].
    + destruct (IH Hin) as (cs1 & c' & cs2 & -> & H1 & H2).
      exists cs1, c', (cs2 ++ [c]). by rewrite <- app_assoc.
    + by exists cs, c, [].
Qed.

(** C8: in every state the service can reach, [selectMap(name)] returns
    [null] when no map is registered under [name]; when one is, it returns
    the [map] field of the record of that name, and that field is the very
    handle given to the [addMap] (or [add]) call that returned the record. *)
Theorem selectMap_spec cs name :
  let s := run cs init in
  (default_param name (VStr "") ∉ maps.list s ->
   selectMap name s = (Return VNull, s)) /\
  (name ∈ maps.list s ->
   exists it cs1 c cs2,
     it ∈ maps s /\ mapItem.name it = name /\
     selectMap name s = (Return (mapItem.map it), s) /\
     cs = cs1 ++ c :: cs2 /\
     registered_by c (run cs1 init) = Some it /\
     handle_passed c = Some (mapItem.map it)).
Proof.
  intros s. pose proof (reachable_wf cs) as Hwf. fold s in Hwf. split.
  - by apply selectMap_unregistered.
  - intros (it & -> & Hin)%list_elem_of_fmap.
    destruct (registered_provenance cs it Hin) as (cs1 & c & cs2 & H1 & H2 & H3).
    exists it, cs1, c, cs2. repeat split; try done.
    by apply selectMap_registered.
Qed.

Lemma selectMap_spec_witness :
  selectMap (VStr "side")
    (run [call_addMap (VStr "main") (VMap 4); call_addMap (VMap 5) VUndefined] init)
  = (Return VNull,
     run [call_addMap (VStr "main") (VMap 4); call_addMap (VMap 5) VUndefined] init) /\
  exists it cs1 c cs2,
    it ∈ maps (run [call_addMap (VStr "main") (VMap 4);
                    call_addMap (VMap 5) VUndefined] init) /\
    mapItem.name it = VStr "map-2" /\
    selectMap (VStr "map-2")
      (run [call_addMap (VStr "main") (VMap 4); call_addMap (VMap 5) VUndefined] init)
    = (Return (mapItem.map it),
       run [call_addMap (VStr "main") (VMap 4); call_addMap (VMap 5) VUndefined] init) /\
    [call_addMap (VStr "main") (VMap 4); call_addMap (VMap 5) VUndefined]
    = cs1 ++ c :: cs2 /\
    registered_by c (run cs1 init) = Some it /\
    handle_passed c = Some (mapItem.map it).
Proof.
  split.
  - apply (proj1 (selectMap_spec
                    [call_addMap (VStr "main") (VMap 4);
                     call_addMap (VMap 5) VUndefined] (VStr "side"))).
    vm_compute. intros H. repeat (inversion H as [|? ? ? H']; clear H; rename H' into H).
  - apply (proj2 (selectMap_spec
                    [call_addMap (VStr "main") (VMap 4);
                     call_addMap (VMap 5) VUndefined] (VStr "map-2"))).
    vm_compute. right. left.
Defined.

Example selectMap_exact_handle :
  fst (selectMap (VStr "map-2")
         (run [call_addMap (VStr "main") (VMap 4);
               call_addMap (VMap 5) VUndefined] init))
  = Return (VMap 5).
Proof. reflexivity. Qed.

(** C10: in every state the service can reach every record of the store
    holds a map instance, a truthy value, in its [map] field; so [selectMap]
    returns [null] for the names that are not registered and for no other. *)
Theorem selectMap_null_iff_unregistered cs name :
  let s := run cs init in
  Forall (fun it => instanceof_Map (mapItem.map it) = true /\
                    truthy (mapItem.map it) = true) (maps s) /\
  (fst (selectMap name s) = Return VNull <->
   default_param name (VStr "") ∉ maps.list s).
Proof.
  intros s. pose proof (reachable_wf cs) as Hwf. fold s in Hwf.
  assert (Forall (fun it => instanceof_Map (mapItem.map it) = true /\
                            truthy (mapItem.map it) = true) (maps s)) as Hmaps.
  { destruct Hwf as [_ H2 _]. eapply Forall_impl; [exact H2|].
    intros it H. split; [exact H | by apply instanceof_Map_truthy]. }
  split; [exact Hmaps|]. split.
  - intros Hnull (it & Hname & Hin)%list_elem_of_fmap.
    assert (selectMap name s = selectMap (mapItem.name it) s) as E.
    { unfold selectMap. rewrite <- Hname. by destruct name. }
    rewrite E, (selectMap_registered s it Hwf Hin) in Hnull. simpl in Hnull.
    rewrite Forall_forall in Hmaps. destruct (Hmaps _ Hin) as [Hm _].
    assert (mapItem.map it = VNull) as Hmap by congruence.
    rewrite Hmap in Hm. discriminate.
  - intros Hnot. by rewrite (selectMap_unregistered s name Hwf Hnot).
Qed.

(** ** [refreshMap] *)

(** C9: in every state the service can reach, [refreshMap(name)] of a name
    that is not registered returns [false] (it does not throw) and its only
    effect is a warning on the logger; of a registered name it returns
    [true] and its only effect is to trigger [resize] on the map handle of
    that name. *)
Theorem refreshMap_spec cs name :
  let s := run cs init in
  let n := default_param name (VStr "") in
  (n ∉ maps.list s ->
   refreshMap name s =
     (Return false,
      emit (LoggerWarn "Attempted to refresh undefined GMap instance: "
                       (js_or n (VStr "(no map name given)"))) s)) /\
  (forall it, it ∈ maps s -> mapItem.name it = n ->
   refreshMap name s =
     (Return true, emit (EventTrigger (mapItem.map it) "resize") s)).
Proof.
  intros s n. pose proof (reachable_wf cs) as [H1 H2 H3]. fold s in H1, H2, H3.
  unfold refreshMap, maps.refresh, maps.select. unfold_monad. fold n. split.
  - intros Hnot. by rewrite (select_loop_not_elem _ _ H1 Hnot).
  - intros it Hin <-. by rewrite (select_loop_elem _ _ H1 H3 Hin).
Qed.

Lemma refreshMap_spec_witness :
  refreshMap (VStr "unknown") (run [call_addMap (VStr "main") (VMap 4)] init)
  = (Return false,
     emit (LoggerWarn "Attempted to refresh undefined GMap instance: "
                      (VStr "unknown"))
       (run [call_addMap (VStr "main") (VMap 4)] init)) /\
  refreshMap (VStr "main") (run [call_addMap (VStr "main") (VMap 4)] init)
  = (Return true,
     emit (EventTrigger (VMap 4) "resize")
       (run [call_addMap (VStr "main") (VMap 4)] init)).
Proof.
  split.
  - apply (proj1 (refreshMap_spec [call_addMap (VStr "main") (VMap 4)]
                    (VStr "unknown"))).
    vm_compute. intros H. repeat (inversion H as [|? ? ? H']; clear H; rename H' into H).
  - apply (proj2 (refreshMap_spec [call_addMap (VStr "main") (VMap 4)]
                    (VStr "main"))
             {| mapItem.name := VStr "main"; mapItem.map := VMap 4 |}).
    + vm_compute. left.
    + reflexivity.
Defined.

(** ** Base 36 *)

Lemma append_String x (a b : string) : String x a +:+ b = String x (a +:+ b).
Proof. reflexivity. Qed.

Lemma append_assoc (a b c : string) : (a +:+ b) +:+ c = a +:+ (b +:+ c).
Proof.
  induction a as [|x a IH]; [reflexivity|].
  rewrite !append_String. f_equal. exact IH.
Qed.

Lemma digit36_value_digit36 d :
  (d < 36)%N -> digit36_value (digit36 d) = Some d.
Proof.
  intros Hd. unfold digit36, digit36_value.
  destruct (N.ltb_spec d 10) as [Hlt|Hge].
  - rewrite N_ascii_embedding by lia.
    destruct (N.leb_spec 48 (48 + d)); [|lia].
    destruct (N.ltb_spec (48 + d) 58); [|lia].
    simpl. f_equal. lia.
  - rewrite N_ascii_embedding by lia.
    destruct (N.leb_spec 48 (87 + d)); [|lia].
    destruct (N.ltb_spec (87 + d) 58); [lia|].
    destruct (N.leb_spec 97 (87 + d)); [|lia].
    destruct (N.ltb_spec (87 + d) 123); [|lia].
    simpl. f_equal. lia.
Qed.

Lemma parse36_from_app s1 s2 a :
  parse36_from (s1 +:+ s2) a =
  match parse36_from s1 a with
  | Some v => parse36_from s2 v
  | None => None
  end.
Proof.
  revert a. induction s1 as [|c s1 IH]; intros a; [reflexivity|].
  rewrite append_String. simpl.
  destruct (digit36_value c); [apply IH | reflexivity].
Qed.

Lemma digits36_acc fuel n acc :
  digits36 fuel n acc = digits36 fuel n "" +:+ acc.
Proof.
  revert n acc. induction fuel as [|fuel IH]; intros n acc; simpl; [reflexivity|].
  destruct (n / 36 =? 0)%N; [reflexivity|].
  rewrite (IH _ (String _ acc)), (IH _ (String _ "")).
  by rewrite append_assoc.
Qed.

Lemma digits36_length fuel n acc :
  String.length acc <= String.length (digits36 fuel n acc).
Proof.
  revert n acc. induction fuel as [|fuel IH]; intros n acc; simpl; [lia|].
  destruct (n / 36 =? 0)%N; simpl; [lia|].
  etransitivity; [|apply IH]. simpl. lia.
Qed.

Lemma parse36_from_digits36 fuel n :
  (n < 36 ^ N.of_nat fuel)%N ->
  parse36_from (digits36 fuel n "") 0 = Some n.
Proof.
  revert n. induction fuel as [|fuel IH]; intros n Hn.
  - simpl in *. f_equal. lia.
  - rewrite Nat2N.inj_succ, N.pow_succ_r' in Hn. simpl.
    assert (n mod 36 < 36)%N as Hmod by (apply N.mod_lt; lia).
    pose proof (N.div_mod' n 36) as Hdiv.
    destruct (N.eqb_spec (n / 36) 0) as [Hz|Hnz].
    + simpl. rewrite digit36_value_digit36 by exact Hmod. f_equal. lia.
    + rewrite digits36_acc, parse36_from_app.
      rewrite IH by (apply N.Div0.div_lt_upper_bound; lia).
      simpl. rewrite digit36_value_digit36 by exact Hmod. f_equal. lia.
Qed.

(** Reading the digits [toString36] writes gives the number back. *)
Lemma parse36_toString36 n : parse36 (toString36 n) = Some n.
Proof.
  unfold toString36, parse36.
  pose proof (digits36_length (S (N.to_nat (N.log2 n))) n "") as Hlen.
  rewrite <- (parse36_from_digits36 (S (N.to_nat (N.log2 n))) n).
  - simpl in Hlen |- *. destruct (n / 36 =? 0)%N; [reflexivity|].
    pose proof (digits36_length (N.to_nat (N.log2 n)) (n / 36)
                  (String (digit36 (n mod 36)) "")) as Hl.
    destruct (digits36 _ _ _); [simpl in Hl; lia | reflexivity].
  - rewrite Nat2N.inj_succ, N2Nat.id.
    destruct (N.eq_dec n 0%N) as [->|Hpos]; [reflexivity|].
    destruct (N.log2_spec n) as [_ Hlt]; [lia|].
    eapply N.lt_le_trans; [exact Hlt|].
    apply N.pow_le_mono_l. lia.
Qed.

(** ** The counter of [addMap] *)

(** C7: every call of [addMap], whatever its arguments and whether it returns
    or throws, leaves the counter one higher; called with a map handle alone
    it passes [add] the name [map-] followed by the new value of the counter
    written in base 36, so it registers the handle under that name, or throws
    when [select] finds that name taken. *)
Theorem addMap_counter s name map h :
  let generated := VStr ("map-" +:+ toString36 (mapIter s + 1)) in
  let it := {| mapItem.name := generated; mapItem.map := VMap h |} in
  mapIter (snd (addMap name map s)) = (mapIter s + 1)%N /\
  parse36 (toString36 (mapIter s + 1)) = Some (mapIter s + 1)%N /\
  addMap (VMap h) VUndefined s =
    maps.add generated (VMap h) (set_mapIter (mapIter s + 1) s) /\
  addMap (VMap h) VUndefined s =
    match maps.select_loop generated (maps s) with
    | None =>
        (Return it,
         {| maps := maps s ++ [it]; mapIter := mapIter s + 1; effects := effects s |})
    | Some _ =>
        (Throw (Error "GMap name is taken, select a new GMap name"),
         set_mapIter (mapIter s + 1) s)
    end.
Proof.
  intros generated it. split; [|split; [|split]].
  - unfold addMap. unfold_monad.
    destruct (instanceof_Map name); simpl; by rewrite add_mapIter.
  - apply parse36_toString36.
  - reflexivity.
  - unfold addMap, maps.add, maps.select. unfold_monad. fold generated.
    by destruct (maps.select_loop generated (maps s)).
Qed.

Example addMap_counter_after_failure :
  maps.list (run [call_addMap VUndefined VUndefined;
                  call_addMap (VStr "main") VNull;
                  call_addMap (VMap 9) VUndefined] init)
  = [VStr "map-3"].
Proof. reflexivity. Qed.

Example addMap_counter_base36 :
  fst (addMap (VMap 9) VUndefined {| maps := []; mapIter := 35; effects := [] |})
  = Return {| mapItem.name := VStr "map-10"; mapItem.map := VMap 9 |}.
Proof. reflexivity. Qed.

(** ** The names of the registry *)

(** C6, as amended: in every state the service can reach every registered
    name is a string.  Every call of [addMap] raises the counter by one, and
    [addMap] makes a name from the counter exactly when its first argument is
    a map handle; with any other first argument the name goes to [add] as it
    was given, and the record of an [addMap] that returns holds that name.
    So an empty name given with a map handle is registered as it is, the
    record put last, unless the empty name is taken, when the call throws;
    and an [undefined] name makes the call throw. *)
Theorem registered_names_are_strings cs name map h :
  let s := run cs init in
  let counted := set_mapIter (mapIter s + 1) s in
  let generated := VStr ("map-" +:+ toString36 (mapIter s + 1)) in
  let unnamed := {| mapItem.name := VStr ""; mapItem.map := VMap h |} in
  Forall (fun n => typeof n = "string") (maps.list s) /\
  mapIter (snd (addMap name map s)) = (mapIter s + 1)%N /\
  addMap (VMap h) map s = maps.add generated (VMap h) counted /\
  (instanceof_Map name = false ->
   addMap name map s = maps.add name map counted) /\
  (forall it s',
     addMap name map s = (Return it, s') ->
     maps s' = maps s ++ [it] /\
     (instanceof_Map name = true ->
      it = {| mapItem.name := generated; mapItem.map := name |}) /\
     (instanceof_Map name = false ->
      it = {| mapItem.name := name; mapItem.map := map |})) /\
  (VStr "" ∉ maps.list s ->
   addMap (VStr "") (VMap h) s =
     (Return unnamed,
      {| maps := maps s ++ [unnamed]; mapIter := mapIter s + 1;
         effects := effects s |})) /\
  (VStr "" ∈ maps.list s ->
   addMap (VStr "") (VMap h) s =
     (Throw (Error "GMap name is taken, select a new GMap name"), counted)) /\
  addMap VUndefined map s = (Throw (Error "GMap name must be a string"), counted).
Proof.
  intros s counted generated unnamed.
  pose proof (reachable_wf cs) as [H1 _ _]. fold s in H1.
  split; [|split; [|split; [|split; [|split; [|split; [|split]]]]]].
  - unfold maps.list. by apply Forall_fmap.
  - unfold addMap. unfold_monad.
    destruct (instanceof_Map name); simpl; by rewrite add_mapIter.
  - reflexivity.
  - intros Hname. unfold addMap. unfold_monad. by rewrite Hname.
  - intros it s'. unfold addMap. unfold_monad.
    destruct (instanceof_Map name) eqn:Hname; simpl;
      intros (_ & _ & _ & -> & ->)%add_Return; simpl; repeat split; done.
  - intros Hfree. unfold addMap, maps.add, maps.select. unfold_monad.
    by rewrite (select_loop_not_elem _ _ H1 Hfree).
  - intros Htaken. unfold addMap, maps.add, maps.select. unfold_monad.
    destruct (maps.select_loop (VStr "") (maps s)) eqn:Hsel; [reflexivity|].
    by apply select_loop_None_not_elem in Hsel.
  - reflexivity.
Qed.

Lemma registered_names_are_strings_witness :
  addMap (VStr "main") (VMap 1) init
  = maps.add (VStr "main") (VMap 1) (set_mapIter 1 init) /\
  addMap (VStr "") (VMap 1) init
  = (Return {| mapItem.name := VStr ""; mapItem.map := VMap 1 |},
     {| maps := [{| mapItem.name := VStr ""; mapItem.map := VMap 1 |}];
        mapIter := 1; effects := [] |}) /\
  addMap (VStr "") (VMap 1) (run [call_addMap (VStr "") (VMap 0)] init)
  = (Throw (Error "GMap name is taken, select a new GMap name"),
     set_mapIter 2 (run [call_addMap (VStr "") (VMap 0)] init)).
Proof.
  split; [|split].
  - destruct (registered_names_are_strings [] (VStr "main") (VMap 1) 1)
      as (_ & _ & _ & H & _).
    apply H. reflexivity.
  - destruct (registered_names_are_strings [] (VStr "main") (VMap 1) 1)
      as (_ & _ & _ & _ & _ & H & _).
    apply H. vm_compute. intros Hin. inversion Hin.
  - destruct (registered_names_are_strings [call_addMap (VStr "") (VMap 0)]
                (VStr "main") (VMap 1) 1)
      as (_ & _ & _ & _ & _ & _ & H & _).
    apply H. vm_compute. left.
Defined.

(** C6, as stated, fails: [addMap] called with an empty name registers the
    empty name and generates none, and called with an [undefined] name it
    throws. *)
Lemma addMap_empty_or_undefined_name :
  (exists s',
     addMap (VStr "") (VMap 0) init
     = (Return {| mapItem.name := VStr ""; mapItem.map := VMap 0 |}, s') /\
     maps.list s' = [VStr ""]) /\
  (exists s',
     addMap VUndefined (VMap 0) init
     = (Throw (Error "GMap name must be a string"), s') /\
     maps.list s' = []).
Proof. split; eexists; (split; [vm_compute; reflexivity | reflexivity]). Qed.

(** ** The geocode queue *)

Lemma filter_other_not_elem (q : list nat) r :
  r ∉ q -> List.filter (fun x => negb (Nat.eqb x r)) q = q.
Proof.
  induction q as [|x q IH]; intros Hnot; [reflexivity|].
  apply not_elem_of_cons in Hnot as [Hne Hnot]. simpl.
  destruct (Nat.eqb_spec x r) as [->|_]; [done|]. simpl. by rewrite IH.
Qed.

Lemma elem_of_filter_other (q : list nat) r x :
  x ∈ List.filter (fun y => negb (Nat.eqb y r)) q <-> x ∈ q /\ x <> r.
Proof.
  rewrite !list_elem_of_In, filter_In, negb_true_iff, Nat.eqb_neq. done.
Qed.

Lemma NoDup_filter_other (q : list nat) r :
  NoDup q -> NoDup (List.filter (fun y => negb (Nat.eqb y r)) q).
Proof.
  induction 1 as [|x q Hx Hq IH]; simpl; [constructor|].
  destruct (negb (Nat.eqb x r)); [|exact IH].
  constructor; [|exact IH]. rewrite elem_of_filter_other. tauto.
Qed.

(** In a queue that holds [request] once, [indexOf] finds it, and taking
    that entry out leaves the other requests in place. *)
Lemma indexOf_from_elem q request i :
  request ∈ q -> NoDup q ->
  exists k,
    indexOf_from q request i = (i + Z.of_nat k)%Z /\
    k < length q /\
    delete k q = List.filter (fun x => negb (Nat.eqb x request)) q.
Proof.
  revert i. induction q as [|x q IH]; intros i Hin Hnd; [by inversion Hin|].
  apply NoDup_cons in Hnd as [Hx Hnd]. simpl.
  destruct (Nat.eqb_spec x request) as [->|Hne].
  - exists 0. simpl. repeat split; [lia | lia |].
    by rewrite filter_other_not_elem.
  - apply elem_of_cons in Hin as [->|Hin]; [done|].
    destruct (IH (i + 1)%Z Hin Hnd) as (k & Hk & Hlen & Hdel).
    exists (S k). simpl. repeat split; [lia | lia | by rewrite Hdel].
Qed.

Lemma splice1_indexOf q request :
  request ∈ q -> NoDup q ->
  splice1 q (indexOf q request) =
  List.filter (fun x => negb (Nat.eqb x request)) q.
Proof.
  intros Hin Hnd. unfold splice1, indexOf.
  destruct (indexOf_from_elem q request 0 Hin Hnd) as (k & -> & Hlen & Hdel).
  destruct (Z.ltb_spec (0 + Z.of_nat k) 0); [lia|].
  rewrite Z.min_l by lia. by replace (Z.to_nat (0 + Z.of_nat k)) with k by lia.
Qed.

Lemma geocode_inv env options g :
  queue_inv g -> queue_inv (snd (geocode env options g)).
Proof.
  intros [H1 H2 H3 H4 H5].
  assert (forall r, r ∈ _geocodeQueue g ++ [length (promises g)] <->
                    r < length (promises g) + 1 /\ r ∉ called g) as Hqueue.
  { intros r. rewrite elem_of_app, list_elem_of_singleton, (H1 r). split.
    - intros [[Hlt Hnc]| ->]; [split; [lia | exact Hnc]|].
      split; [lia|]. intros Hc%H5. lia.
    - intros [Hlt Hnc]. destruct (decide (r = length (promises g))); [by right|].
      left. split; [lia | exact Hnc]. }
  assert (NoDup (_geocodeQueue g ++ [length (promises g)])) as Honce.
  { apply NoDup_app. split; [exact H2|]. split; [|apply NoDup_singleton].
    intros r Hr ->%list_elem_of_singleton. apply H1 in Hr as [Hlt _]. lia. }
  unfold geocode. destruct (executor env options) as [thrown|]; simpl.
  - split; simpl.
    + intros r. rewrite length_app. exact (Hqueue r).
    + exact Honce.
    + intros r Hr. apply elem_of_app. left. by apply H3.
    + intros r Hr. rewrite lookup_app_l; [by apply H4|].
      by eapply lookup_lt_Some, H4.
    + intros r Hr%H5. rewrite length_app. lia.
  - split; simpl.
    + intros r. rewrite length_app. exact (Hqueue r).
    + exact Honce.
    + intros r [Hr| ->%list_elem_of_singleton]%elem_of_app; apply elem_of_app;
        [left; by apply H3 | right; left].
    + intros r [Hr| ->%list_elem_of_singleton]%elem_of_app.
      * rewrite lookup_app_l; [by apply H4|]. by eapply lookup_lt_Some, H4.
      * by rewrite lookup_app_r, Nat.sub_diag.
    + intros r Hr%H5. rewrite length_app. lia.
Qed.

Lemma answer_queue request result status g :
  queue_inv g -> request ∈ provider g ->
  _geocodeQueue (answer request result status g) =
  List.filter (fun r => negb (Nat.eqb r request)) (_geocodeQueue g).
Proof.
  intros [H1 H2 H3 H4 H5] Hin. simpl. apply splice1_indexOf; [by apply H3 | exact H2].
Qed.

Lemma answer_inv request result status g :
  queue_inv g -> request ∈ provider g ->
  queue_inv (answer request result status g).
Proof.
  intros Hinv Hin. pose proof (answer_queue request result status g Hinv Hin) as Hq.
  destruct Hinv as [H1 H2 H3 H4 H5]. split.
  - intros r. rewrite Hq, elem_of_filter_other, (H1 r). simpl.
    rewrite length_alter, not_elem_of_app, list_elem_of_singleton. tauto.
  - rewrite Hq. by apply NoDup_filter_other.
  - intros r. rewrite Hq. simpl. rewrite !elem_of_filter_other.
    intros [Hr Hne]. split; [by apply H3 | exact Hne].
  - simpl. intros r [Hr Hne]%elem_of_filter_other.
    rewrite list_lookup_alter_ne by done. by apply H4.
  - simpl. intros r. rewrite length_alter.
    intros [Hr| ->%list_elem_of_singleton]%elem_of_app; [by apply H5|].
    by eapply lookup_lt_Some, H4.
Qed.

Lemma reachable_inv g : geocoding_reachable g -> queue_inv g.
Proof.
  induction 1 as [|g g' _ IH Hstep].
  - split; simpl.
    + intros r. split; [by intros ?%elem_of_nil | lia].
    + constructor.
    + by intros r ?%elem_of_nil.
    + by intros r ?%elem_of_nil.
    + by intros r ?%elem_of_nil.
  - destruct Hstep as [env options g|request result status g Hin].
    + by apply geocode_inv.
    + by apply answer_inv.
Qed.

(** The request [geocode] returns is new and queued; when the executor
    completes it is pending and with the geocoder, when the executor throws
    it is rejected with what was thrown and the geocoder holds nothing
    new. *)
Lemma geocode_request env options g :
  let request := fst (geocode env options g) in
  let g' := snd (geocode env options g) in
  promises g !! request = None /\
  request ∈ _geocodeQueue g' /\
  match executor env options with
  | None => promises g' !! request = Some Pending /\
            provider g' = provider g ++ [request]
  | Some thrown => promises g' !! request = Some (Failed thrown) /\
                   provider g' = provider g
  end.
Proof.
  unfold geocode. destruct (executor env options) as [thrown|]; simpl.
  - split; [by apply lookup_ge_None|].
    split; [apply elem_of_app; right; left|].
    split; [by rewrite lookup_app_r, Nat.sub_diag | reflexivity].
  - split; [by apply lookup_ge_None|].
    split; [apply elem_of_app; right; left|].
    split; [by rewrite lookup_app_r, Nat.sub_diag | reflexivity].
Qed.

Lemma strict_eq_VStr_false v s : v <> VStr s -> strict_eq v (VStr s) = false.
Proof.
  intros Hne. destruct (strict_eq v (VStr s)) eqn:E; [|reflexivity].
  apply strict_eq_string_r in E; done.
Qed.

(** C4: when the geocoder calls the callback of a request it has not
    answered yet, the request's promise, pending until then, is resolved with
    the result if the status is ["OK"] or ["ZERO_RESULTS"], and else is
    rejected with an object whose [status] is that status and whose [message]
    is the result's [error_message], set exactly when the result and its
    [error_message] are truthy. *)
Theorem geocode_settles g request result status :
  geocoding_reachable g ->
  request ∈ provider g ->
  promises g !! request = Some Pending /\
  promises (answer request result status g) !! request
    = Some (outcome result status) /\
  (status = VStr "OK" \/ status = VStr "ZERO_RESULTS" ->
   outcome result status = Fulfilled result) /\
  (status <> VStr "OK" -> status <> VStr "ZERO_RESULTS" ->
   exists e,
     outcome result status = Rejected e /\
     err.status e = status /\
     forall m, err.message e = Some m <->
               truthy result = true /\
               get_prop result "error_message" = m /\
               truthy m = true).
Proof.
  intros Hreach Hin.
  pose proof (inv_pending g (reachable_inv g Hreach) _ Hin) as Hpending.
  split; [exact Hpending|]. split; [|split].
  - simpl. rewrite list_lookup_alter_eq, Hpending. reflexivity.
  - unfold outcome. by intros [-> | ->].
  - intros Hok Hzero. unfold outcome.
    rewrite (strict_eq_VStr_false _ _ Hok), (strict_eq_VStr_false _ _ Hzero).
    simpl. eexists. split; [reflexivity|]. split; [reflexivity|].
    intros m. simpl. unfold js_and.
    destruct (truthy result) eqn:Hres.
    + destruct (truthy (get_prop result "error_message")) eqn:Hmsg.
      * split; [by intros [= <-] | by intros (_ & -> & _)].
      * split; [discriminate | intros (_ & <- & Hm); congruence].
    + rewrite Hres. split; [discriminate | by intros [? _]].
Qed.

Lemma two_requests_reachable : geocoding_reachable two_requests.
Proof.
  unfold two_requests.
  eapply reachable_step; [|apply step_geocode].
  eapply reachable_step; [|apply step_geocode].
  apply reachable_init.
Qed.

Lemma one_failed_reachable : geocoding_reachable one_failed.
Proof.
  unfold one_failed.
  eapply reachable_step; [apply two_requests_reachable | apply step_geocode].
Qed.

Lemma geocode_settles_witness :
  let result := VObj 7 [("error_message", VStr "quota exceeded")] in
  let status := VStr "OVER_QUERY_LIMIT" in
  promises two_requests !! 0 = Some Pending /\
  promises (answer 0 result status two_requests) !! 0
    = Some (outcome result status) /\
  (status = VStr "OK" \/ status = VStr "ZERO_RESULTS" ->
   outcome result status = Fulfilled result) /\
  (status <> VStr "OK" -> status <> VStr "ZERO_RESULTS" ->
   exists e,
     outcome result status = Rejected e /\
     err.status e = status /\
     forall m, err.message e = Some m <->
               truthy result = true /\
               get_prop result "error_message" = m /\
               truthy m = true).
Proof.
  intros result status.
  apply (geocode_settles two_requests 0 result status).
  - apply two_requests_reachable.
  - vm_compute. left.
Defined.

Example geocode_zero_results :
  promises (answer 1 (VObj 7 []) (VStr "ZERO_RESULTS") two_requests)
  = [Pending; Fulfilled (VObj 7 [])].
Proof. reflexivity. Qed.

Example geocode_over_query_limit :
  promises
    (answer 0 (VObj 7 [("error_message", VStr "quota exceeded")])
       (VStr "OVER_QUERY_LIMIT") two_requests)
  = [Rejected {| err.status := VStr "OVER_QUERY_LIMIT";
                 err.message := Some (VStr "quota exceeded") |};
     Pending].
Proof. reflexivity. Qed.

Example geocode_over_query_limit_no_result :
  promises (answer 0 VNull (VStr "OVER_QUERY_LIMIT") two_requests)
  = [Rejected {| err.status := VStr "OVER_QUERY_LIMIT"; err.message := None |};
     Pending].
Proof. reflexivity. Qed.

(** C5: in every state the program reaches, the queue holds, each once, the
    requests made whose callback has not been called, those whose callback
    the geocoder holds among them; and when the geocoder calls the callback
    of a request, with whatever result and status, that request, found by
    identity, leaves the queue and every other request stays where it was,
    so the queue again holds only requests whose callback has not run. *)
Theorem geocode_queue_unanswered g :
  geocoding_reachable g ->
  (forall r, r ∈ _geocodeQueue g <-> r < length (promises g) /\ r ∉ called g) /\
  NoDup (_geocodeQueue g) /\
  (forall r, r ∈ provider g -> r ∈ _geocodeQueue g) /\
  forall request result status,
    request ∈ provider g ->
    (let g' := answer request result status g in
     called g' = called g ++ [request] /\
     _geocodeQueue g'
       = List.filter (fun r => negb (Nat.eqb r request)) (_geocodeQueue g) /\
     (request ∉ _geocodeQueue g') /\
     (forall r, r <> request -> (r ∈ _geocodeQueue g' <-> r ∈ _geocodeQueue g)) /\
     (forall r, r ∈ _geocodeQueue g' <->
                r < length (promises g') /\ r ∉ called g')).
Proof.
  intros Hreach. pose proof (reachable_inv g Hreach) as Hinv.
  split; [apply Hinv|]. split; [apply Hinv|]. split; [apply Hinv|].
  intros request result status Hin g'.
  pose proof (answer_queue request result status g Hinv Hin) as Hq.
  pose proof (answer_inv request result status g Hinv Hin) as Hinv'.
  fold g' in Hq, Hinv'. split; [reflexivity|]. split; [exact Hq|].
  split; [|split; [|apply Hinv']].
  - rewrite Hq, elem_of_filter_other. tauto.
  - intros r Hne. rewrite Hq, elem_of_filter_other. tauto.
Qed.

Lemma geocode_queue_unanswered_witness :
  (forall r, r ∈ _geocodeQueue one_failed <->
             r < length (promises one_failed) /\ r ∉ called one_failed) /\
  NoDup (_geocodeQueue one_failed) /\
  (forall r, r ∈ provider one_failed -> r ∈ _geocodeQueue one_failed) /\
  forall request result status,
    request ∈ provider one_failed ->
    (let g' := answer request result status one_failed in
     called g' = called one_failed ++ [request] /\
     _geocodeQueue g'
       = List.filter (fun r => negb (Nat.eqb r request)) (_geocodeQueue one_failed) /\
     (request ∉ _geocodeQueue g') /\
     (forall r, r <> request ->
                (r ∈ _geocodeQueue g' <-> r ∈ _geocodeQueue one_failed)) /\
     (forall r, r ∈ _geocodeQueue g' <->
                r < length (promises g') /\ r ∉ called g')).
Proof.
  apply (geocode_queue_unanswered one_failed).
  apply one_failed_reachable.
Defined.

Example geocode_queue_after_answer :
  _geocodeQueue (answer 0 VNull (VStr "ERROR") two_requests) = [1].
Proof. reflexivity. Qed.

Example geocode_executor_throws :
  promises one_failed
  = [Pending; Pending; Failed (VObj 0 [("name", VStr "ReferenceError")])] /\
  _geocodeQueue one_failed = [0; 1; 2] /\
  provider one_failed = [0; 1] /\
  fst (geocode working VUndefined geocoding_init) = 0 /\
  promises (snd (geocode working VUndefined geocoding_init))
  = [Failed (VObj 0 [("name", VStr "TypeError")])] /\
  _geocodeQueue (snd (geocode working VUndefined geocoding_init)) = [0] /\
  provider (snd (geocode working VUndefined geocoding_init)) = [].
Proof. repeat split. Qed.

(** [indexOf] gives [-1] for a request that is not in the queue, and
    [splice] then counts from the end. *)
Example splice1_request_not_queued :
  indexOf [3; 4; 5] 9 = (-1)%Z /\ splice1 [3; 4; 5] (indexOf [3; 4; 5] 9) = [3; 4].
Proof. split; reflexivity. Qed.

(** * Further properties of the registry *)

Lemma select_loop_app_None name ms more :
  maps.select_loop name ms = None ->
  maps.select_loop name (ms ++ more) = maps.select_loop name more.
Proof.
  induction ms as [|x rest IH]; simpl; [done|].
  destruct (strict_eq (mapItem.name x) name); [discriminate | exact IH].
Qed.

Lemma select_loop_app_Some name ms more it :
  maps.select_loop name ms = Some it ->
  maps.select_loop name (ms ++ more) = Some it.
Proof.
  induction ms as [|x rest IH]; simpl; [discriminate|].
  destruct (strict_eq (mapItem.name x) name); [done | exact IH].
Qed.

Lemma select_loop_delete other ms k x :
  ms !! k = Some x ->
  strict_eq (mapItem.name x) other = false ->
  maps.select_loop other (delete k ms) = maps.select_loop other ms.
Proof.
  revert k. induction ms as [|y rest IH]; intros k Hk Hx; [done|].
  destruct k as [|k]; simpl in *.
  - injection Hk as ->. by rewrite Hx.
  - destruct (strict_eq (mapItem.name y) other); [reflexivity|]. by eapply IH.
Qed.

Lemma strict_eq_VStr_ne (a b : string) : a <> b -> strict_eq (VStr a) (VStr b) = false.
Proof. intros Hne. simpl. by apply String.eqb_neq. Qed.

Lemma not_elem_without name names : name ∉ without name names.
Proof.
  induction names as [|n rest IH]; simpl; [by intros ?%elem_of_nil|].
  destruct (strict_eq n name) eqn:E; [exact IH|].
  intros [->|Hin]%elem_of_cons; [|by apply IH].
  rewrite strict_eq_refl in E. discriminate.
Qed.

(** X1: Map names are unique: in every state the service can reach, [list()]
    gives no name twice. *)
Theorem registered_names_unique cs : NoDup (maps.list (run cs init)).
Proof. apply (wf_unique _ (reachable_wf cs)). Qed.

(** X2: A map that [add] has registered is found again: when [add(name, map)]
    returns, in whatever state it was called, the record it returns is
    [{ name, map }], the name is put last in [list()], [select(name)] gives
    that record and [selectMap(name)] gives [map]; the counter and the
    outgoing calls are as before. *)
Theorem add_then_select name map s it s' :
  maps.add name map s = (Return it, s') ->
  it = {| mapItem.name := name; mapItem.map := map |} /\
  maps.list s' = maps.list s ++ [name] /\
  mapIter s' = mapIter s /\ effects s' = effects s /\
  maps.select name s' = (Return (Some it), s') /\
  selectMap name s' = (Return map, s').
Proof.
  intros (Hname & Hmap & Hsel & -> & ->)%add_Return.
  assert (maps.select_loop name
            (maps s ++ [{| mapItem.name := name; mapItem.map := map |}])
          = Some {| mapItem.name := name; mapItem.map := map |}) as Hfound.
  { rewrite (select_loop_app_None _ _ _ Hsel). simpl. by rewrite strict_eq_refl. }
  split; [reflexivity|]. split; [unfold maps.list; simpl; by rewrite fmap_app|].
  split; [reflexivity|]. split; [reflexivity|]. split.
  - unfold maps.select, gets. simpl. by rewrite Hfound.
  - unfold selectMap, maps.select. unfold_monad.
    rewrite (default_param_string _ _ Hname), Hfound. simpl.
    by rewrite (instanceof_Map_truthy _ Hmap).
Qed.

Lemma add_then_select_witness :
  {| mapItem.name := VStr "main"; mapItem.map := VMap 3 |}
  = {| mapItem.name := VStr "main"; mapItem.map := VMap 3 |} /\
  maps.list (snd (maps.add (VStr "main") (VMap 3) init))
  = maps.list init ++ [VStr "main"] /\
  mapIter (snd (maps.add (VStr "main") (VMap 3) init)) = mapIter init /\
  effects (snd (maps.add (VStr "main") (VMap 3) init)) = effects init /\
  maps.select (VStr "main") (snd (maps.add (VStr "main") (VMap 3) init))
  = (Return (Some {| mapItem.name := VStr "main"; mapItem.map := VMap 3 |}),
     snd (maps.add (VStr "main") (VMap 3) init)) /\
  selectMap (VStr "main") (snd (maps.add (VStr "main") (VMap 3) init))
  = (Return (VMap 3), snd (maps.add (VStr "main") (VMap 3) init)).
Proof.
  apply (add_then_select (VStr "main") (VMap 3) init
           {| mapItem.name := VStr "main"; mapItem.map := VMap 3 |}
           (snd (maps.add (VStr "main") (VMap 3) init))).
  reflexivity.
Defined.

(** X3: Adding or removing a map under one name leaves what is registered under
    every other name as it was: in whatever state, after [add(name, map)]
    or [remove(name)], returned or thrown, [select] and [selectMap] of
    another name give what they gave before. *)
Theorem other_names_untouched (name other : string) map s :
  name <> other ->
  fst (maps.select (VStr other) (snd (maps.add (VStr name) map s)))
  = fst (maps.select (VStr other) s) /\
  fst (selectMap (VStr other) (snd (maps.add (VStr name) map s)))
  = fst (selectMap (VStr other) s) /\
  fst (maps.select (VStr other) (snd (maps.remove (VStr name) s)))
  = fst (maps.select (VStr other) s) /\
  fst (selectMap (VStr other) (snd (maps.remove (VStr name) s)))
  = fst (selectMap (VStr other) s).
Proof.
  intros Hne.
  assert (maps.select_loop (VStr other) (maps (snd (maps.add (VStr name) map s)))
          = maps.select_loop (VStr other) (maps s)) as Hadd.
  { destruct (maps.add (VStr name) map s) as [[it|e] s'] eqn:E; simpl.
    - apply add_Return in E as (_ & _ & _ & -> & ->). simpl.
      destruct (maps.select_loop (VStr other) (maps s)) as [found|] eqn:Hsel.
      + by apply select_loop_app_Some.
      + rewrite (select_loop_app_None _ _ _ Hsel). simpl.
        by rewrite (proj2 (String.eqb_neq name other) Hne).
    - by apply add_Throw in E as ->. }
  assert (maps.select_loop (VStr other) (maps (snd (maps.remove (VStr name) s)))
          = maps.select_loop (VStr other) (maps s)) as Hremove.
  { unfold maps.remove. unfold_monad.
    destruct (maps.remove_loop (VStr name) (maps s) 0) as [j|] eqn:E; simpl; [|done].
    apply remove_loop_Some in E as (k & x & -> & Hk & Hsel & _). simpl.
    apply select_loop_Some in Hsel as [_ Hx].
    apply strict_eq_string_r in Hx; [|reflexivity].
    apply (select_loop_delete _ _ _ x Hk). rewrite Hx.
    by apply strict_eq_VStr_ne. }
  unfold selectMap, maps.select, gets, bind. cbn [fst snd default_param].
  rewrite Hadd, Hremove.
  destruct (maps.select_loop (VStr other) (maps s)) as [it|]; [|done].
  by destruct (truthy (mapItem.map it)).
Qed.

Lemma other_names_untouched_witness :
  fst (maps.select (VStr "side")
         (snd (maps.add (VStr "main") (VMap 1)
                 (run [call_addMap (VStr "side") (VMap 0)] init))))
  = fst (maps.select (VStr "side") (run [call_addMap (VStr "side") (VMap 0)] init)) /\
  fst (selectMap (VStr "side")
         (snd (maps.add (VStr "main") (VMap 1)
                 (run [call_addMap (VStr "side") (VMap 0)] init))))
  = fst (selectMap (VStr "side") (run [call_addMap (VStr "side") (VMap 0)] init)) /\
  fst (maps.select (VStr "side")
         (snd (maps.remove (VStr "main")
                 (run [call_addMap (VStr "side") (VMap 0)] init))))
  = fst (maps.select (VStr "side") (run [call_addMap (VStr "side") (VMap 0)] init)) /\
  fst (selectMap (VStr "side")
         (snd (maps.remove (VStr "main")
                 (run [call_addMap (VStr "side") (VMap 0)] init))))
  = fst (selectMap (VStr "side") (run [call_addMap (VStr "side") (VMap 0)] init)).
Proof.
  apply (other_names_untouched "main" "side" (VMap 1)
           (run [call_addMap (VStr "side") (VMap 0)] init)).
  discriminate.
Defined.

(** X4: In every state the service can reach, [removeMap(name)] of a name that is
    not registered returns [false] and changes nothing; of a registered name
    it returns [true], takes that name, and no other, out of [list()], after
    which [selectMap(name)] gives [null]; in neither case does it throw,
    touch the counter or make an outgoing call. *)
Theorem removeMap_spec cs name :
  let s := run cs init in
  let n := default_param name (VStr "") in
  (n ∉ maps.list s -> removeMap name s = (Return false, s)) /\
  (n ∈ maps.list s ->
   exists s',
     removeMap name s = (Return true, s') /\
     maps.list s' = without n (maps.list s) /\
     (n ∉ maps.list s') /\
     selectMap name s' = (Return VNull, s') /\
     mapIter s' = mapIter s /\ effects s' = effects s).
Proof.
  intros s n. pose proof (reachable_wf cs) as Hwf. fold s in Hwf.
  unfold removeMap. fold n. split.
  - intros Hnot. unfold maps.remove. unfold_monad.
    destruct Hwf as [H1 _ _].
    apply (select_loop_not_elem _ _ H1), (remove_loop_None _ _ 0) in Hnot.
    by rewrite Hnot.
  - intros Hin.
    destruct (maps.remove n s) as [[b|e] s'] eqn:E.
    + destruct b.
      * pose proof (remove_wf n s Hwf) as Hwf'. rewrite E in Hwf'. simpl in Hwf'.
        apply remove_true in E as (Hl & Hi & He); [|exact Hwf].
        exists s'. split; [reflexivity|]. split; [exact Hl|].
        assert (n ∉ maps.list s') as Hgone by (rewrite Hl; apply not_elem_without).
        split; [exact Hgone|]. split; [|done].
        by apply selectMap_unregistered.
      * exfalso. unfold maps.remove in E. unfold_monad.
        destruct (maps.remove_loop n (maps s) 0) eqn:Hloop; [discriminate|].
        apply remove_loop_None, select_loop_None_not_elem in Hloop. done.
    + exfalso. unfold maps.remove in E. unfold_monad.
      by destruct (maps.remove_loop n (maps s) 0).
Qed.

Lemma removeMap_spec_witness :
  removeMap (VStr "side") (run [call_addMap (VStr "main") (VMap 4)] init)
  = (Return false, run [call_addMap (VStr "main") (VMap 4)] init) /\
  exists s',
    removeMap (VStr "main") (run [call_addMap (VStr "main") (VMap 4)] init)
    = (Return true, s') /\
    maps.list s'
    = without (VStr "main")
        (maps.list (run [call_addMap (VStr "main") (VMap 4)] init)) /\
    (VStr "main" ∉ maps.list s') /\
    selectMap (VStr "main") s' = (Return VNull, s') /\
    mapIter s' = mapIter (run [call_addMap (VStr "main") (VMap 4)] init) /\
    effects s' = effects (run [call_addMap (VStr "main") (VMap 4)] init).
Proof.
  split.
  - apply (proj1 (removeMap_spec [call_addMap (VStr "main") (VMap 4)] (VStr "side"))).
    vm_compute. intros H. repeat (inversion H as [|? ? ? H']; clear H; rename H' into H).
  - apply (proj2 (removeMap_spec [call_addMap (VStr "main") (VMap 4)] (VStr "main"))).
    vm_compute. left.
Defined.

(** X5: An [addMap] that throws has registered nothing: in whatever state and
    with whatever arguments, the state a throwing [addMap] leaves differs
    from the one it found only by the counter, which is one higher. *)
Theorem addMap_throw_state name map s e s' :
  addMap name map s = (Throw e, s') ->
  s' = set_mapIter (mapIter s + 1) s /\
  maps s' = maps s /\ effects s' = effects s.
Proof.
  unfold addMap. unfold_monad.
  destruct (instanceof_Map name); simpl; intros ->%add_Throw; done.
Qed.

Lemma addMap_throw_state_witness :
  snd (addMap (VStr "main") VNull init) = set_mapIter (mapIter init + 1) init /\
  maps (snd (addMap (VStr "main") VNull init)) = maps init /\
  effects (snd (addMap (VStr "main") VNull init)) = effects init.
Proof.
  apply (addMap_throw_state (VStr "main") VNull init
           (Error "GMap service only accepts Google Map instances")
           (snd (addMap (VStr "main") VNull init))).
  reflexivity.
Defined.

(** X6: Looking a map up changes nothing that is registered: in whatever state,
    [select] and [selectMap] leave the state as it is, and [refreshMap]
    leaves the records and the counter as they are and makes one outgoing
    call, a warning exactly when it returns [false]. *)
Theorem lookups_leave_registry name s :
  snd (maps.select name s) = s /\
  snd (selectMap name s) = s /\
  maps (snd (refreshMap name s)) = maps s /\
  mapIter (snd (refreshMap name s)) = mapIter s /\
  exists e,
    effects (snd (refreshMap name s)) = effects s ++ [e] /\
    match e with
    | LoggerWarn _ _ => fst (refreshMap name s) = Return false
    | EventTrigger _ _ => fst (refreshMap name s) = Return true
    end.
Proof.
  split; [reflexivity|]. split; [apply selectMap_state|].
  unfold refreshMap, maps.refresh, maps.select. unfold_monad.
  destruct (maps.select_loop _ (maps s)); simpl; repeat split; eexists; split;
    reflexivity.
Qed.

(** ** Generated names *)

Lemma toString36_inj a b : toString36 a = toString36 b -> a = b.
Proof.
  intros H. pose proof (parse36_toString36 a) as Ha.
  rewrite H, parse36_toString36 in Ha. congruence.
Qed.

Lemma generated_name_inj a b :
  "map-" +:+ toString36 a = "map-" +:+ toString36 b -> a = b.
Proof.
  rewrite !append_String. intros [= H]. by apply toString36_inj.
Qed.

Lemma auto_named_fresh s :
  auto_named s ->
  maps.select_loop (VStr ("map-" +:+ toString36 (mapIter s + 1))) (maps s) = None.
Proof.
  intros Hauto. apply select_loop_None. eapply Forall_impl; [exact Hauto|].
  intros it (k & Hk & ->).
  apply strict_eq_VStr_ne. intros ->%generated_name_inj. lia.
Qed.

Lemma auto_named_same s s' :
  maps s' = maps s -> mapIter s' = mapIter s -> auto_named s -> auto_named s'.
Proof. unfold auto_named. by intros -> ->. Qed.

Lemma remove_auto_named name s : auto_named s -> auto_named (snd (maps.remove name s)).
Proof.
  intros Hauto. unfold maps.remove. unfold_monad.
  destruct (maps.remove_loop name (maps s) 0); simpl; [|exact Hauto].
  unfold auto_named. simpl. by apply Forall_delete.
Qed.

Lemma refresh_mapIter name s : mapIter (snd (maps.refresh name s)) = mapIter s.
Proof.
  unfold maps.refresh, maps.select. unfold_monad.
  by destruct (maps.select_loop name (maps s)).
Qed.

Lemma addMap_auto_named h map s :
  auto_named s ->
  addMap (VMap h) map s =
    (Return {| mapItem.name := VStr ("map-" +:+ toString36 (mapIter s + 1));
               mapItem.map := VMap h |},
     {| maps := maps s ++ [{| mapItem.name := VStr ("map-" +:+ toString36 (mapIter s + 1));
                              mapItem.map := VMap h |}];
        mapIter := mapIter s + 1;
        effects := effects s |}) /\
  auto_named (snd (addMap (VMap h) map s)).
Proof.
  intros Hauto. pose proof (auto_named_fresh s Hauto) as Hfresh.
  assert (addMap (VMap h) map s =
    (Return {| mapItem.name := VStr ("map-" +:+ toString36 (mapIter s + 1));
               mapItem.map := VMap h |},
     {| maps := maps s ++ [{| mapItem.name := VStr ("map-" +:+ toString36 (mapIter s + 1));
                              mapItem.map := VMap h |}];
        mapIter := mapIter s + 1;
        effects := effects s |})) as E.
  { unfold addMap, maps.add, maps.select. unfold_monad. by rewrite Hfresh. }
  split; [exact E|]. rewrite E. unfold auto_named. simpl.
  apply Forall_app. split.
  - eapply Forall_impl; [exact Hauto|]. intros it (k & Hk & Hn).
    exists k. split; [lia | exact Hn].
  - repeat constructor. exists (mapIter s + 1)%N. split; [lia | reflexivity].
Qed.

Lemma exec_auto_named c s :
  wf s -> auto_only c = true -> auto_named s -> auto_named (exec c s).
Proof.
  intros Hwf Hc Hauto. destruct c; simpl in *; try exact Hauto; try discriminate.
  - by apply remove_auto_named.
  - eapply auto_named_same; [apply refresh_maps | apply refresh_mapIter | exact Hauto].
  - destruct name; try discriminate. by apply addMap_auto_named.
  - eapply auto_named_same; [apply refresh_maps | apply refresh_mapIter | exact Hauto].
  - rewrite (removeAll_empties s Hwf). constructor.
  - by apply remove_auto_named.
  - by rewrite selectMap_state.
Qed.

Lemma run_auto_named cs :
  forallb auto_only cs = true -> auto_named (run cs init).
Proof.
  induction cs as [|c cs IH] using rev_ind; intros Hcs; [constructor|].
  rewrite forallb_app in Hcs. apply andb_true_iff in Hcs as [Hcs Hc].
  simpl in Hc. rewrite andb_true_r in Hc.
  rewrite run_snoc. apply exec_auto_named; [apply reachable_wf | exact Hc | by apply IH].
Qed.

(** X7: Generated names do not collide: as long as the application leaves the
    naming to the service, calling [addMap] with a map handle alone and never
    [add] or [addMap] with a name, [addMap(handle)] returns, whatever has
    been removed or reset in between, and registers the handle last under
    [map-] and the new value of the counter. *)
Theorem generated_names_are_free cs h :
  forallb auto_only cs = true ->
  let s := run cs init in
  let it := {| mapItem.name := VStr ("map-" +:+ toString36 (mapIter s + 1));
               mapItem.map := VMap h |} in
  addMap (VMap h) VUndefined s =
    (Return it,
     {| maps := maps s ++ [it]; mapIter := mapIter s + 1; effects := effects s |}).
Proof.
  intros Hcs s it.
  apply (proj1 (addMap_auto_named h VUndefined s (run_auto_named cs Hcs))).
Qed.

Lemma generated_names_are_free_witness :
  let s := run [call_addMap (VMap 0) VUndefined; call_addMap (VMap 1) VUndefined;
                call_removeMap (VStr "map-1"); call_addMap (VMap 2) VUndefined] init in
  let it := {| mapItem.name := VStr ("map-" +:+ toString36 (mapIter s + 1));
               mapItem.map := VMap 3 |} in
  addMap (VMap 3) VUndefined s =
    (Return it,
     {| maps := maps s ++ [it]; mapIter := mapIter s + 1; effects := effects s |}).
Proof.
  apply (generated_names_are_free
           [call_addMap (VMap 0) VUndefined; call_addMap (VMap 1) VUndefined;
            call_removeMap (VStr "map-1"); call_addMap (VMap 2) VUndefined] 3).
  reflexivity.
Defined.

(** A name the application chose can be in the way of a generated one. *)
Example generated_name_taken :
  fst (addMap (VMap 1) VUndefined (run [call_addMap (VStr "map-2") (VMap 0)] init))
  = Throw (Error "GMap name is taken, select a new GMap name").
Proof. reflexivity. Qed.

(** * Further properties of the geocode queue *)

Lemma outcome_by_callback result status :
  (exists r, outcome result status = Fulfilled r) \/
  (exists e, outcome result status = Rejected e).
Proof.
  unfold outcome.
  destruct (strict_eq status (VStr "OK") || strict_eq status (VStr "ZERO_RESULTS"));
    eauto.
Qed.

Lemma reachable_promise_stands g :
  geocoding_reachable g -> promise_stands g.
Proof.
  induction 1 as [|g g' Hreach IH Hstep].
  - intros r p Hp. simpl in Hp. discriminate.
  - pose proof (reachable_inv g Hreach) as [H1 H2 H3 H4 H5].
    destruct Hstep as [env options g|request result status g Hin]; intros r p.
    + assert (length (promises g) ∉ provider g) as Hfresh.
      { intros Hl%H4%lookup_lt_Some. lia. }
      assert (forall q, promises g !! r = Some q -> r <> length (promises g)) as Hold.
      { intros q Hq%lookup_lt_Some. lia. }
      unfold geocode. destruct (executor env options) as [thrown|]; simpl;
        intros Hp; apply lookup_app_Some in Hp as [Hp|[Hlen Hp]].
      * pose proof (Hold _ Hp) as Hne.
        destruct (IH r p Hp) as [[-> Hr]|[(Hf & Hq & Hnp)|[Hs Hnq]]].
        -- left. done.
        -- right. left. split; [exact Hf|]. split; [|exact Hnp].
           apply elem_of_app. by left.
        -- right. right. split; [exact Hs|].
           rewrite elem_of_app, list_elem_of_singleton. tauto.
      * apply list_lookup_singleton_Some in Hp as [Hz <-].
        assert (r = length (promises g)) as -> by lia.
        right. left. split; [eauto|]. split; [|exact Hfresh].
        apply elem_of_app. right. left.
      * pose proof (Hold _ Hp) as Hne.
        destruct (IH r p Hp) as [[-> Hr]|[(Hf & Hq & Hnp)|[Hs Hnq]]].
        -- left. split; [reflexivity|]. apply elem_of_app. by left.
        -- right. left. split; [exact Hf|].
           rewrite !elem_of_app, list_elem_of_singleton. tauto.
        -- right. right. split; [exact Hs|].
           rewrite elem_of_app, list_elem_of_singleton. tauto.
      * apply list_lookup_singleton_Some in Hp as [Hz <-].
        assert (r = length (promises g)) as -> by lia.
        left. split; [reflexivity|]. apply elem_of_app. right. left.
    + pose proof (answer_queue request result status g
                    (reachable_inv g Hreach) Hin) as Hq.
      rewrite Hq. simpl. rewrite !elem_of_filter_other.
      destruct (decide (request = r)) as [->|Hne].
      * rewrite list_lookup_alter_eq, (H4 _ Hin). simpl. intros [= <-].
        right. right. split; [apply outcome_by_callback | tauto].
      * rewrite list_lookup_alter_ne by done. intros Hp.
        destruct (IH r p Hp) as [[-> Hr]|[(Hf & Hrq & Hnp)|[Hs Hnq]]].
        -- left. done.
        -- right. left. split; [exact Hf|]. split; [done | tauto].
        -- right. right. split; [exact Hs | tauto].
Qed.

(** X9: The queue lists the promises that no callback has settled: in every
    state the program reaches, a request is in the queue exactly when its
    promise is pending or was rejected because the executor threw; a promise
    that a callback has fulfilled or rejected is not in the queue.  A request
    whose executor threw is settled and queued, and the geocoder holds no
    callback that would take it out. *)
Theorem queue_lists_unsettled g request :
  geocoding_reachable g ->
  (request ∈ _geocodeQueue g <->
   promises g !! request = Some Pending \/
   exists thrown, promises g !! request = Some (Failed thrown)) /\
  (forall thrown, promises g !! request = Some (Failed thrown) ->
                  request ∈ _geocodeQueue g /\ request ∉ provider g).
Proof.
  intros Hreach. pose proof (reachable_inv g Hreach) as [H1 H2 H3 H4 H5].
  pose proof (reachable_promise_stands g Hreach) as Hstands. split; [split|].
  - intros Hin. pose proof (proj1 (H1 _) Hin) as [Hlt _].
    apply lookup_lt_is_Some in Hlt as [p Hp]. rewrite Hp.
    destruct (Hstands _ _ Hp) as [[-> _]|[([t ->] & _)|[_ Hnq]]];
      [by left | right; eauto | done].
  - intros [Hp|[thrown Hp]];
      destruct (Hstands _ _ Hp) as [[_ Hr]|[(_ & Hq & _)|[[[? ?]|[? ?]] _]]];
      try discriminate; try exact Hq; by apply H3.
  - intros thrown Hp.
    destruct (Hstands _ _ Hp) as [[? _]|[(_ & Hq & Hnp)|[[[? ?]|[? ?]] _]]];
      try discriminate. done.
Qed.

Lemma queue_lists_unsettled_witness :
  (2 ∈ _geocodeQueue (answer 0 VNull (VStr "ERROR") one_failed) <->
   promises (answer 0 VNull (VStr "ERROR") one_failed) !! 2 = Some Pending \/
   exists thrown,
     promises (answer 0 VNull (VStr "ERROR") one_failed) !! 2 = Some (Failed thrown)) /\
  (forall thrown,
     promises (answer 0 VNull (VStr "ERROR") one_failed) !! 2 = Some (Failed thrown) ->
     2 ∈ _geocodeQueue (answer 0 VNull (VStr "ERROR") one_failed) /\
     2 ∉ provider (answer 0 VNull (VStr "ERROR") one_failed)).
Proof.
  apply (queue_lists_unsettled (answer 0 VNull (VStr "ERROR") one_failed) 2).
  eapply reachable_step; [apply one_failed_reachable|].
  apply step_answer. vm_compute. left.
Defined.

Example failed_request_stays_queued :
  _geocodeQueue (answer 1 VNull (VStr "OK") (answer 0 VNull (VStr "ERROR") one_failed))
  = [2] /\
  provider (answer 1 VNull (VStr "OK") (answer 0 VNull (VStr "ERROR") one_failed))
  = [].
Proof. split; reflexivity. Qed.

Lemma StronglySorted_filter_other (q : list nat) r :
  StronglySorted lt q ->
  StronglySorted lt (List.filter (fun x => negb (Nat.eqb x r)) q).
Proof.
  induction 1 as [|x q Hq IH Hx]; simpl; [constructor|].
  destruct (negb (Nat.eqb x r)); [|exact IH].
  constructor; [exact IH|].
  apply Forall_forall. intros y [Hy _]%elem_of_filter_other.
  rewrite Forall_forall in Hx. by apply Hx.
Qed.

(** X10: The queue is in the order of the calls: in every state the program
    reaches, the requests in the queue are in the order in which [geocode]
    made them, the oldest first. *)
Theorem queue_oldest_first g :
  geocoding_reachable g ->
  StronglySorted lt (_geocodeQueue g) /\
  Forall (fun request => request < length (promises g)) (_geocodeQueue g).
Proof.
  induction 1 as [|g g' Hreach [IHs IHb] Hstep].
  - split; constructor.
  - pose proof (reachable_inv g Hreach) as Hinv.
    destruct Hstep as [env options g|request result status g Hin].
    + assert (_geocodeQueue (snd (geocode env options g))
              = _geocodeQueue g ++ [length (promises g)]) as ->
        by (unfold geocode; by destruct (executor env options)).
      assert (length (promises (snd (geocode env options g)))
              = length (promises g) + 1) as ->
        by (unfold geocode; destruct (executor env options); simpl;
            by rewrite length_app).
      split.
      * apply StronglySorted_app. split; [|split; [exact IHs | repeat constructor]].
        intros x y Hx ->%list_elem_of_singleton.
        rewrite Forall_forall in IHb. by apply IHb.
      * apply Forall_app. split.
        -- eapply Forall_impl; [exact IHb|]. simpl. lia.
        -- repeat constructor. lia.
    + rewrite (answer_queue request result status g Hinv Hin). split.
      * by apply StronglySorted_filter_other.
      * simpl. rewrite length_alter. apply Forall_forall.
        intros y [Hy _]%elem_of_filter_other.
        rewrite Forall_forall in IHb. by apply IHb.
Qed.

Lemma queue_oldest_first_witness :
  StronglySorted lt (_geocodeQueue two_requests) /\
  Forall (fun request => request < length (promises two_requests))
         (_geocodeQueue two_requests).
Proof.
  apply (queue_oldest_first two_requests). apply two_requests_reachable.
Defined.

(** X11: A settled promise stays as it is: in whatever state, a promise that is
    fulfilled or rejected is the same after any call of a callback, its own
    included, and after any call of [geocode], whether its executor throws
    or not. *)
Theorem settled_is_final g r p :
  promises g !! r = Some p ->
  p <> Pending ->
  (forall request result status,
     promises (callback request result status g) !! r = Some p) /\
  (forall env options, promises (snd (geocode env options g)) !! r = Some p).
Proof.
  intros Hp Hsettled. split.
  - intros request result status. simpl.
    destruct (decide (request = r)) as [->|Hne].
    + rewrite list_lookup_alter_eq, Hp. simpl. by destruct p.
    + by rewrite list_lookup_alter_ne.
  - intros env options. unfold geocode.
    destruct (executor env options); simpl;
      (rewrite lookup_app_l; [exact Hp | by eapply lookup_lt_Some]).
Qed.

Lemma settled_is_final_witness :
  (forall request result status,
     promises (callback request result status
                 (answer 0 (VObj 7 []) (VStr "OK") two_requests)) !! 0
     = Some (Fulfilled (VObj 7 []))) /\
  (forall env options,
     promises (snd (geocode env options
                      (answer 0 (VObj 7 []) (VStr "OK") two_requests))) !! 0
     = Some (Fulfilled (VObj 7 []))).
Proof.
  apply (settled_is_final (answer 0 (VObj 7 []) (VStr "OK") two_requests) 0
           (Fulfilled (VObj 7 []))).
  - reflexivity.
  - discriminate.
Defined.

Lemma indexOf_from_not_elem q request i :
  request ∉ q -> indexOf_from q request i = (-1)%Z.
Proof.
  revert i. induction q as [|x q IH]; intros i Hnot; [reflexivity|].
  apply not_elem_of_cons in Hnot as [Hne Hnot]. simpl.
  destruct (Nat.eqb_spec x request) as [->|_]; [done | by apply IH].
Qed.

(** X12: A callback called for a request that is not in the queue, as it is when
    it is called a second time, takes the last request out of the queue:
    [indexOf] gives [-1] and [splice(-1, 1)] removes the last entry,
    whichever request that is; an empty queue stays empty. *)
Theorem callback_not_queued_drops_last request result status g :
  request ∉ _geocodeQueue g ->
  _geocodeQueue (callback request result status g)
  = take (length (_geocodeQueue g) - 1) (_geocodeQueue g).
Proof.
  intros Hnot. simpl. unfold splice1, indexOf.
  rewrite (indexOf_from_not_elem _ _ _ Hnot). simpl.
  destruct (_geocodeQueue g) as [|x q _] using rev_ind; [reflexivity|].
  rewrite length_app. simpl.
  replace (Z.to_nat (Z.max (Z.of_nat (length q + 1) + -1) 0)) with (length q) by lia.
  replace (length q + 1 - 1) with (length q) by lia.
  rewrite delete_middle, app_nil_r. by rewrite take_app_length.
Qed.

Lemma callback_not_queued_drops_last_witness :
  _geocodeQueue (callback 0 VNull (VStr "OK")
                   (snd (geocode working (VObj 3 []) (answer 0 VNull (VStr "OK") two_requests))))
  = take (length (_geocodeQueue
                    (snd (geocode working (VObj 3 []) (answer 0 VNull (VStr "OK") two_requests)))) - 1)
      (_geocodeQueue (snd (geocode working (VObj 3 []) (answer 0 VNull (VStr "OK") two_requests)))).
Proof.
  apply (callback_not_queued_drops_last 0 VNull (VStr "OK")
           (snd (geocode working (VObj 3 []) (answer 0 VNull (VStr "OK") two_requests)))).
  vm_compute. intros H.
  repeat (inversion H as [|? ? ? H']; clear H; rename H' into H).
Defined.

Example callback_twice :
  _geocodeQueue (snd (geocode working (VObj 3 []) (answer 0 VNull (VStr "OK") two_requests))) = [1; 2] /\
  _geocodeQueue (callback 0 VNull (VStr "OK")
                   (snd (geocode working (VObj 3 []) (answer 0 VNull (VStr "OK") two_requests))))
  = [1].
Proof. split; reflexivity. Qed.

(** * Properties of [autocompletes] *)

Lemma obj_get_set rt o key v :
  (key = "__proto__" -> is_object v = true) ->
  obj_get rt (obj_set o key v) key = v.
Proof.
  intros Hproto. unfold obj_set.
  destruct (own o !! key) eqn:Hown.
  - unfold obj_get. simpl. by rewrite lookup_insert_eq.
  - destruct (String.eqb key "__proto__" && negb (is_null (proto o))) eqn:Hkey.
    + apply andb_true_iff in Hkey as [Hkey _].
      rewrite (Hproto (proj1 (String.eqb_eq _ _) Hkey)). simpl.
      unfold obj_get, inherited. simpl. rewrite Hown, Hkey.
      specialize (Hproto (proj1 (String.eqb_eq _ _) Hkey)). by destruct v.
    + unfold obj_get. simpl. by rewrite lookup_insert_eq.
Qed.

Lemma obj_get_set_ne rt o key other v :
  key <> "__proto__" -> key <> other ->
  obj_get rt (obj_set o key v) other = obj_get rt o other.
Proof.
  intros Hkey Hne. unfold obj_set.
  rewrite (proj2 (String.eqb_neq key "__proto__") Hkey). simpl.
  destruct (own o !! key); unfold obj_get, inherited; simpl;
    by rewrite lookup_insert_ne.
Qed.

Lemma obj_get_delete rt o key : obj_get rt (obj_delete o key) key = inherited rt o key.
Proof. unfold obj_get, obj_delete. simpl. by rewrite lookup_delete_eq. Qed.

Lemma obj_get_delete_ne rt o key other :
  key <> other -> obj_get rt (obj_delete o key) other = obj_get rt o other.
Proof.
  intros Hne. unfold obj_get, obj_delete, inherited. simpl.
  by rewrite lookup_delete_ne.
Qed.

(** X13: An item that was added is found again: when the item has a component
    whose element id can be read, [add(item)] writes the item under the key
    of that id, in place of what was stored there, and [get] then returns
    the item, whether it is given the component or the id as a string.  (An
    item filed under [__proto__] is found again as the prototype it has
    become, for which it has to be an object.) *)
Theorem autocompletes_add_get rt item component id store :
  read_prop item "component" = Some component ->
  Ember_get rt component "elementId" = Some id ->
  typeOf rt component <> "string" ->
  (property_key rt id = "__proto__" -> is_object item = true) ->
  autocompletes.add rt item store = Some (obj_set store (property_key rt id) item) /\
  autocompletes.get rt component (obj_set store (property_key rt id) item)
  = Some item /\
  autocompletes.get rt (VStr (property_key rt id))
    (obj_set store (property_key rt id) item)
  = Some item.
Proof.
  intros Hitem Hid Htype Hproto. unfold autocompletes.add, autocompletes.get.
  rewrite Hitem. simpl. rewrite Hid. simpl.
  apply String.eqb_neq in Htype. rewrite Htype.
  split; [reflexivity|]. by rewrite (obj_get_set rt store _ item Hproto).
Qed.

Lemma autocompletes_add_get_witness :
  let component := VObj 2 [("elementId", VStr "ember42")] in
  let item := VObj 1 [("component", component)] in
  let store := autocompletes.empty plain_runtime in
  autocompletes.add plain_runtime item store
  = Some (obj_set store (property_key plain_runtime (VStr "ember42")) item) /\
  autocompletes.get plain_runtime component
    (obj_set store (property_key plain_runtime (VStr "ember42")) item)
  = Some item /\
  autocompletes.get plain_runtime (VStr (property_key plain_runtime (VStr "ember42")))
    (obj_set store (property_key plain_runtime (VStr "ember42")) item)
  = Some item.
Proof.
  intros component item store.
  apply (autocompletes_add_get plain_runtime item component (VStr "ember42") store).
  - reflexivity.
  - reflexivity.
  - discriminate.
  - discriminate.
Defined.

(** X14: A removed entry is gone: when the element id of the component can be
    read, [remove(component)] deletes what is stored under the key of that
    id, after which [get], given the component or the id, returns what the
    object inherits under that key: [undefined] when it inherits nothing
    there, as for an element id that Ember made, and the inherited value
    when the id names a property of the prototype, as [toString] does.  When
    nothing was stored under the key the object is as before. *)
Theorem autocompletes_remove_get rt component id store :
  Ember_get rt component "elementId" = Some id ->
  typeOf rt component <> "string" ->
  let key := property_key rt id in
  autocompletes.remove rt component store = Some (obj_delete store key) /\
  autocompletes.get rt component (obj_delete store key)
  = Some (inherited rt store key) /\
  autocompletes.get rt (VStr key) (obj_delete store key)
  = Some (inherited rt store key) /\
  (inherited rt store key = VUndefined ->
   autocompletes.get rt component (obj_delete store key) = Some VUndefined /\
   autocompletes.get rt (VStr key) (obj_delete store key) = Some VUndefined) /\
  (own store !! key = None -> obj_delete store key = store).
Proof.
  intros Hid Htype key. unfold autocompletes.remove, autocompletes.get.
  rewrite Hid. simpl. apply String.eqb_neq in Htype. rewrite Htype. fold key.
  rewrite obj_get_delete.
  split; [reflexivity|]. split; [reflexivity|]. split; [reflexivity|].
  split; [by intros ->|].
  intros Hnone. unfold obj_delete. rewrite (delete_id _ _ Hnone). by destruct store.
Qed.

Lemma autocompletes_remove_get_witness :
  let component := VObj 2 [("elementId", VStr "ember42")] in
  let item := VObj 1 [("component", component)] in
  let store := obj_set (autocompletes.empty plain_runtime) "ember42" item in
  let key := property_key plain_runtime (VStr "ember42") in
  autocompletes.remove plain_runtime component store = Some (obj_delete store key) /\
  autocompletes.get plain_runtime component (obj_delete store key)
  = Some (inherited plain_runtime store key) /\
  autocompletes.get plain_runtime (VStr key) (obj_delete store key)
  = Some (inherited plain_runtime store key) /\
  (inherited plain_runtime store key = VUndefined ->
   autocompletes.get plain_runtime component (obj_delete store key) = Some VUndefined /\
   autocompletes.get plain_runtime (VStr key) (obj_delete store key) = Some VUndefined) /\
  (own store !! key = None -> obj_delete store key = store).
Proof.
  intros component item store key.
  apply (autocompletes_remove_get plain_runtime component (VStr "ember42") store).
  - reflexivity.
  - discriminate.
Defined.

(** A removed entry under the name of an inherited property reads as that
    property. *)
Example autocompletes_remove_inherited :
  let component := VObj 2 [("elementId", VStr "toString")] in
  let item := VObj 1 [("component", component)] in
  let store := obj_set (autocompletes.empty plain_runtime) "toString" item in
  autocompletes.get plain_runtime component store = Some item /\
  autocompletes.get plain_runtime component (obj_delete store "toString")
  = Some (VObj 2 []).
Proof. split; vm_compute; reflexivity. Qed.

(** X15: Entries under other keys are left alone: what [get] returns for a
    key is the same before and after a [remove], and before and after an
    [add] that files its item under another key, [__proto__] apart. *)
Theorem autocompletes_other_ids rt item component id other store store' :
  Ember_get rt component "elementId" = Some id ->
  property_key rt id <> other ->
  (read_prop item "component" = Some component /\
   property_key rt id <> "__proto__" /\
   autocompletes.add rt item store = Some store') \/
  autocompletes.remove rt component store = Some store' ->
  autocompletes.get rt (VStr other) store' = autocompletes.get rt (VStr other) store.
Proof.
  intros Hid Hne Hcall. unfold autocompletes.get. simpl.
  destruct Hcall as [(Hitem & Hkey & Hadd)|Hremove].
  - unfold autocompletes.add in Hadd. rewrite Hitem in Hadd. simpl in Hadd.
    rewrite Hid in Hadd. simpl in Hadd. injection Hadd as <-.
    by rewrite obj_get_set_ne.
  - unfold autocompletes.remove in Hremove. rewrite Hid in Hremove.
    simpl in Hremove. injection Hremove as <-. by rewrite obj_get_delete_ne.
Qed.

Lemma autocompletes_other_ids_witness :
  let component := VObj 2 [("elementId", VStr "ember42")] in
  let item := VObj 1 [("component", component)] in
  let store := obj_set (autocompletes.empty plain_runtime) "ember7" (VObj 3 []) in
  autocompletes.get plain_runtime (VStr "ember7") (obj_set store "ember42" item)
  = autocompletes.get plain_runtime (VStr "ember7") store.
Proof.
  intros component item store.
  apply (autocompletes_other_ids plain_runtime item component (VStr "ember42")
           "ember7" store (obj_set store "ember42" item)).
  - reflexivity.
  - discriminate.
  - left. split; [reflexivity|]. split; [discriminate | reflexivity].
Defined.

(** An item filed under [__proto__] becomes the prototype of the object, and
    other keys then read through it. *)
Example autocompletes_add_proto :
  let component := VObj 2 [("elementId", VStr "__proto__")] in
  let item := VObj 1 [("component", component)] in
  let store := autocompletes.empty plain_runtime in
  autocompletes.get plain_runtime (VStr "component") store = Some VUndefined /\
  autocompletes.add plain_runtime item store
  = Some {| own := ∅; proto := item |} /\
  autocompletes.get plain_runtime (VStr "component") {| own := ∅; proto := item |}
  = Some component /\
  autocompletes.get plain_runtime component {| own := ∅; proto := item |}
  = Some item.
Proof. repeat split; vm_compute; reflexivity. Qed.

(** * When [add] returns *)

(** X8: The three checks of [add] are all there is to it: in every state the
    service can reach, [add(name, map)] returns exactly when [name] is a
    string, [map] is a map instance and [name] is not in [list()]; in every
    other case it throws. *)
Theorem add_returns_iff cs name map :
  let s := run cs init in
  (exists it s', maps.add name map s = (Return it, s')) <->
  typeof name = "string" /\ instanceof_Map map = true /\ name ∉ maps.list s.
Proof.
  intros s. pose proof (reachable_wf cs) as [H1 _ _]. fold s in H1. split.
  - intros (it & s' & (Hname & Hmap & Hsel & _)%add_Return).
    split; [exact Hname|]. split; [exact Hmap|].
    by apply select_loop_None_not_elem.
  - intros (Hname & Hmap & Hnot).
    unfold maps.add, maps.select. unfold_monad.
    rewrite Hname, Hmap. simpl.
    rewrite (select_loop_not_elem _ _ H1 Hnot). simpl. eauto.
Qed.
